(** * revival.ai: the streaming report extractor and its consumers

    A shallow embedding of

    - [services/geminiService.ts]: [analyzeVideoAndCreateRevivalPlan]
      (stream loop, fenced-block extraction, [JSON.parse], wrapper unwrap,
      metadata repair) and [generateVisualOverlay];
    - [services/videoUtils.ts]: [getYoutubeVideoId];
    - [components/AnalysisDashboard.tsx]: the "Segments Impacted" counter,
      the per-item segment links and the frame an overlay is made from;
    - [App.tsx]: the context frames of [handleStartAnalysis];
    - [types.ts]: [Segment], [OutdatedItem], [RevivalStrategy].

    JavaScript strings are sequences of UTF-16 code units, regular
    expressions are run by a backtracking matcher that follows the priority
    rules of ECMAScript, and parsed JSON is a tree of JavaScript values. *)

From Stdlib Require Import ZArith NArith List Ascii String Lia SpecFloat.
From stdpp Require Import base option list gmap.

Local Open Scope N_scope.

(** ** Strings *)

(** A JavaScript string: its UTF-16 code units. *)
Abbreviation jsstring := (list N).

(** [js "abc"] is the JavaScript string with the same (Latin-1) characters. *)
Definition js (s : string) : jsstring :=
  map N_of_ascii (list_ascii_of_string s).

(** [jsq] is [js] where an apostrophe stands for the double quote, so that
    JSON text can be written as a literal. *)
Definition jsq (s : string) : jsstring :=
  map (fun c => if N.eqb c 39 then 34 else c) (js s).

Arguments js : simpl never.
Arguments jsq : simpl never.

(** [s.startsWith(p)] *)
Fixpoint startsWith (p s : jsstring) : bool :=
  match p, s with
  | [], _ => true
  | _ :: _, [] => false
  | a :: p', b :: s' => N.eqb a b && startsWith p' s'
  end.

(** [s.includes(p)] *)
Fixpoint includes (p s : jsstring) : bool :=
  startsWith p s ||
  match s with
  | [] => false
  | _ :: s' => includes p s'
  end.

(** [s.split(sep)] for a non-empty separator: [skip] counts the code units of
    a separator occurrence still to be dropped, [cur] is the piece being
    collected, reversed. *)
Fixpoint split_go (sep : jsstring) (skip : nat) (cur : jsstring)
    (s : jsstring) : list jsstring :=
  match s with
  | [] => [rev cur]
  | c :: s' =>
    match skip with
    | S n => split_go sep n cur s'
    | O =>
      if startsWith sep s
      then rev cur :: split_go sep (Nat.pred (length sep)) [] s'
      else split_go sep O (c :: cur) s'
    end
  end.

Definition split (sep s : jsstring) : list jsstring := split_go sep O [] s.

(** ** Regular expressions *)

(** The fragment of ECMAScript patterns the sources use. Every quantified
    atom in them is a character class, so [Star] ranges over classes. *)
Inductive regex : Type :=
| Eps                                   (* the empty pattern *)
| Chr (c : N)                           (* a pattern character *)
| Cls (p : N → bool)                    (* [.], [\w], [\s], [[...]] *)
| Seq (r1 r2 : regex)                   (* r1 r2 *)
| Alt (r1 r2 : regex)                   (* r1|r2 *)
| Opt (r : regex)                       (* (?:r)? *)
| Star (greedy : bool) (p : N → bool)   (* C* and C*? *)
| Grp (n : nat) (r : regex)             (* the n-th capturing group *)
| Bol                                   (* ^ without the m flag *)
| Eol.                                  (* $ without the m flag *)

(** A literal run of pattern characters. *)
Fixpoint lit (s : jsstring) : regex :=
  match s with
  | [] => Eps
  | c :: s' => Seq (Chr c) (lit s')
  end.

(** [[\s\S]] *)
Definition cls_any (c : N) : bool := true.

(** [.] without the s flag: any code unit but a LineTerminator. *)
Definition cls_dot (c : N) : bool :=
  negb (N.eqb c 10 || N.eqb c 13 || N.eqb c 8232 || N.eqb c 8233).

(** [\s]: WhiteSpace and LineTerminator. *)
Definition cls_space (c : N) : bool :=
  (N.leb 9 c && N.leb c 13) || N.eqb c 32 || N.eqb c 160 || N.eqb c 5760 ||
  (N.leb 8192 c && N.leb c 8202) || N.eqb c 8232 || N.eqb c 8233 ||
  N.eqb c 8239 || N.eqb c 8287 || N.eqb c 12288 || N.eqb c 65279.

(** [\w] *)
Definition cls_word (c : N) : bool :=
  (N.leb 97 c && N.leb c 122) || (N.leb 65 c && N.leb c 90) ||
  (N.leb 48 c && N.leb c 57) || N.eqb c 95.

(** [[^#&?]] *)
Definition cls_id (c : N) : bool :=
  negb (N.eqb c 35 || N.eqb c 38 || N.eqb c 63).

(** Canonicalize of the i flag (without u), on what an ASCII pattern
    character can be compared with: a lower-case ASCII letter goes to upper
    case, and no code unit from 128 on canonicalizes to an ASCII one. *)
Definition canonicalize (c : N) : N :=
  if N.leb 97 c && N.leb c 122 then c - 32 else c.

Definition chr_matches (ignoreCase : bool) (pc c : N) : bool :=
  if ignoreCase then N.eqb (canonicalize pc) (canonicalize c) else N.eqb pc c.

Abbreviation captures := (gmap nat jsstring).

(** What a successful match yields: [m[0]] and the groups that took part. *)
Record match_result : Type := MkMatch {
  matched : jsstring;
  groups : captures
}.

(** The text between the suffix [inp] and its own suffix [rest]. *)
Definition consumed (inp rest : jsstring) : jsstring :=
  take (length inp - length rest) inp.

Section Matcher.
Context {A : Type}.
Variable ignoreCase : bool.
(** the whole subject string, for [^] *)
Variable subject : jsstring.

(** [C*] tries the longest run first, [C*?] the shortest. *)
Fixpoint star (greedy : bool) (p : N → bool) (inp : jsstring)
    (k : jsstring → option A) : option A :=
  match inp with
  | [] => k []
  | c :: rest =>
    if p c then
      if greedy then
        match star greedy p rest k with
        | Some a => Some a
        | None => k inp
        end
      else
        match k inp with
        | Some a => Some a
        | None => star greedy p rest k
        end
    else k inp
  end.

(** The backtracking matcher in continuation-passing style: [k] is the
    rest of the pattern, [None] asks for the next alternative. *)
Fixpoint run (r : regex) (inp : jsstring) (caps : captures)
    (k : jsstring → captures → option A) : option A :=
  match r with
  | Eps => k inp caps
  | Chr pc =>
    match inp with
    | c :: rest => if chr_matches ignoreCase pc c then k rest caps else None
    | [] => None
    end
  | Cls p =>
    match inp with
    | c :: rest => if p c then k rest caps else None
    | [] => None
    end
  | Seq r1 r2 => run r1 inp caps (fun inp' caps' => run r2 inp' caps' k)
  | Alt r1 r2 =>
    match run r1 inp caps k with
    | Some a => Some a
    | None => run r2 inp caps k
    end
  | Opt r1 =>
    match run r1 inp caps k with
    | Some a => Some a
    | None => k inp caps
    end
  | Star greedy p => star greedy p inp (fun rest => k rest caps)
  | Grp n r1 =>
    run r1 inp caps (fun rest caps' => k rest (<[n := consumed inp rest]> caps'))
  | Bol => if Nat.eqb (length inp) (length subject) then k inp caps else None
  | Eol =>
    match inp with
    | [] => k [] caps
    | _ :: _ => None
    end
  end.
End Matcher.

(** The match at one start position, then the next position on failure. *)
Fixpoint scan (ignoreCase : bool) (subject : jsstring) (r : regex)
    (inp : jsstring) : option match_result :=
  match run ignoreCase subject r inp ∅
          (fun rest caps => Some (MkMatch (consumed inp rest) caps)) with
  | Some m => Some m
  | None =>
    match inp with
    | [] => None
    | _ :: inp' => scan ignoreCase subject r inp'
    end
  end.

(** [s.match(re)] for a pattern without the g flag. *)
Definition str_match (ignoreCase : bool) (r : regex) (s : jsstring)
    : option match_result :=
  scan ignoreCase s r s.

(** ** JavaScript values and exceptions *)

(** A double, as the Standard Library specifies binary64. *)
Abbreviation number := spec_float.

(** What [JSON.parse] can return, and what the repair step makes of it: an
    array is an object too and can be given a named property. *)
#[warnings="-register-all"] Inductive value : Type :=
| VNull
| VBool (b : bool)
| VNum (n : number)
| VStr (s : jsstring)
| VArr (elems : list value) (props : gmap jsstring value)
| VObj (fields : gmap jsstring value).

(** What the functions throw: an [Error] with its message, or the
    [TypeError] of the runtime. *)
Inductive exn : Type :=
| Error (message : string)
| TypeError.

Inductive result (A : Type) : Type :=
| Ok (a : A)
| Throw (e : exn).
Arguments Ok {A} a.
Arguments Throw {A} e.

#[global] Instance result_ret : MRet result := @Ok.

#[global] Instance result_bind : MBind result := λ A B f r,
  match r with
  | Ok a => f a
  | Throw e => Throw e
  end.

(** ToBoolean; [None] is [undefined]. *)
Definition truthy (v : value) : bool :=
  match v with
  | VNull => false
  | VBool b => b
  | VNum (S754_zero _) | VNum S754_nan => false
  | VNum _ => true
  | VStr [] => false
  | VStr (_ :: _) => true
  | VArr _ _ | VObj _ => true
  end.

Definition truthy_opt (o : option value) : bool :=
  match o with
  | Some v => truthy v
  | None => false
  end.

(** [v.k] for a property name [k] that is no array index, not [length] and
    on no prototype (the three names the source reads are such names):
    [null] has no properties, a primitive has none of its own. *)
Definition get (v : value) (k : jsstring) : result (option value) :=
  match v with
  | VNull => Throw TypeError
  | VObj fields => Ok (fields !! k)
  | VArr _ props => Ok (props !! k)
  | VBool _ | VNum _ | VStr _ => Ok None
  end.

(** [v.k = x] in module code, which is strict: a property cannot be created
    on a primitive. *)
Definition set (v : value) (k : jsstring) (x : value) : result value :=
  match v with
  | VObj fields => Ok (VObj (<[k := x]> fields))
  | VArr elems props => Ok (VArr elems (<[k := x]> props))
  | VNull | VBool _ | VNum _ | VStr _ => Throw TypeError
  end.

(** ** [JSON.parse] *)

Module JSON.

Definition is_ws (c : N) : bool :=
  N.eqb c 9 || N.eqb c 10 || N.eqb c 13 || N.eqb c 32.

Definition is_digit (c : N) : bool := N.leb 48 c && N.leb c 57.

Fixpoint skip_ws (s : jsstring) : jsstring :=
  match s with
  | c :: s' => if is_ws c then skip_ws s' else s
  | [] => []
  end.

Definition hex (c : N) : option N :=
  if is_digit c then Some (c - 48)
  else if N.leb 97 c && N.leb c 102 then Some (c - 87)
  else if N.leb 65 c && N.leb c 70 then Some (c - 55)
  else None.

Definition hex4 (a b c d : N) : option N :=
  match hex a, hex b, hex c, hex d with
  | Some a, Some b, Some c, Some d => Some (((a * 16 + b) * 16 + c) * 16 + d)
  | _, _, _, _ => None
  end.

Definition escape (c : N) : option N :=
  if N.eqb c 34 then Some 34          (* quote *)
  else if N.eqb c 92 then Some 92     (* backslash *)
  else if N.eqb c 47 then Some 47     (* slash *)
  else if N.eqb c 98 then Some 8      (* \b *)
  else if N.eqb c 102 then Some 12    (* \f *)
  else if N.eqb c 110 then Some 10    (* \n *)
  else if N.eqb c 114 then Some 13    (* \r *)
  else if N.eqb c 116 then Some 9     (* \t *)
  else None.

(** The characters of a string after its opening quote, [acc] reversed. *)
Fixpoint string_body (acc : jsstring) (s : jsstring)
    : option (jsstring * jsstring) :=
  match s with
  | [] => None
  | c :: s' =>
    if N.eqb c 34 then Some (rev acc, s')
    else if N.ltb c 32 then None
    else if N.eqb c 92 then
      match s' with
      | [] => None
      | e :: s'' =>
        if N.eqb e 117 then
          match s'' with
          | a :: b :: c' :: d :: s3 =>
            match hex4 a b c' d with
            | Some u => string_body (u :: acc) s3
            | None => None
            end
          | _ => None
          end
        else
          match escape e with
          | Some u => string_body (u :: acc) s''
          | None => None
          end
      end
    else string_body (c :: acc) s'
  end.

Fixpoint span_digits (s : jsstring) : jsstring * jsstring :=
  match s with
  | c :: s' =>
    if is_digit c then let '(ds, r) := span_digits s' in (c :: ds, r)
    else ([], s)
  | [] => ([], [])
  end.

Definition digits_value (ds : jsstring) : Z :=
  fold_left (fun acc d => (10 * acc + Z.of_N (d - 48))%Z) ds 0%Z.

(** The double nearest to [±m·10^e], ties to even: an integer is rounded
    as it is, a quotient by a power of ten is rounded once. *)
Definition to_double (neg : bool) (m e : Z) : number :=
  match m with
  | Zpos p =>
    match e with
    | Zneg q =>
      SFdiv 53 1024 (S754_finite neg p 0) (S754_finite false (10 ^ q) 0)
    | _ =>
      let n := (Z.pos p * 10 ^ e)%Z in
      binary_normalize 53 1024 (if neg then (- n)%Z else n) 0 false
    end
  | _ => S754_zero neg
  end.

(** A number literal at the head of [s]: an optional minus, the integer
    digits (a lone zero, or digits that start with none), an optional
    fraction, an optional exponent. A zero followed by a digit is refused
    here: no value may be followed by a digit. *)
Definition number_lit (s : jsstring) : option (number * jsstring) :=
  let '(neg, s1) :=
    match s with
    | 45 :: s' => (true, s')
    | _ => (false, s)
    end in
  let '(int, s2) := span_digits s1 in
  match int with
  | [] => None
  | d :: ds =>
    if N.eqb d 48 && negb (Nat.eqb (length ds) 0) then None else
    let frac :=
      match s2 with
      | 46 :: s' =>
        let '(fs, r) := span_digits s' in
        match fs with
        | [] => None
        | _ :: _ => Some (fs, r)
        end
      | _ => Some ([], s2)
      end in
    match frac with
    | None => None
    | Some (fs, s3) =>
      let exp :=
        match s3 with
        | c :: s' =>
          if N.eqb c 101 || N.eqb c 69 then
            let '(eneg, s'') :=
              match s' with
              | 45 :: t => (true, t)
              | 43 :: t => (false, t)
              | _ => (false, s')
              end in
            let '(es, r) := span_digits s'' in
            match es with
            | [] => None
            | _ :: _ =>
              Some (if eneg then (- digits_value es)%Z else digits_value es, r)
            end
          else Some (0%Z, s3)
        | [] => Some (0%Z, s3)
        end in
      match exp with
      | None => None
      | Some (e, r) =>
        Some (to_double neg (digits_value (int ++ fs))
                (e - Z.of_nat (length fs)), r)
      end
    end
  end.

(** One JSON value at the head of [s], after white space. Every call
    consumes input or fuel. *)
Fixpoint value_at (fuel : nat) (s : jsstring) : option (value * jsstring) :=
  match fuel with
  | O => None
  | S fuel' =>
    match skip_ws s with
    | [] => None
    | c :: s' =>
      if N.eqb c 123 then
        match skip_ws s' with
        | 125 :: r => Some (VObj ∅, r)
        | _ => members fuel' ∅ s'
        end
      else if N.eqb c 91 then
        match skip_ws s' with
        | 93 :: r => Some (VArr [] ∅, r)
        | _ => elements fuel' [] s'
        end
      else if N.eqb c 34 then
        match string_body [] s' with
        | Some (str, r) => Some (VStr str, r)
        | None => None
        end
      else if startsWith (js "true") (c :: s') then
        Some (VBool true, drop 4 (c :: s'))
      else if startsWith (js "false") (c :: s') then
        Some (VBool false, drop 5 (c :: s'))
      else if startsWith (js "null") (c :: s') then
        Some (VNull, drop 4 (c :: s'))
      else
        match number_lit (c :: s') with
        | Some (n, r) => Some (VNum n, r)
        | None => None
        end
    end
  end
(** the elements of an array after [[] or [,], [acc] reversed *)
with elements (fuel : nat) (acc : list value) (s : jsstring)
    : option (value * jsstring) :=
  match fuel with
  | O => None
  | S fuel' =>
    match value_at fuel' s with
    | Some (v, r) =>
      match skip_ws r with
      | 44 :: r' => elements fuel' (v :: acc) r'
      | 93 :: r' => Some (VArr (rev (v :: acc)) ∅, r')
      | _ => None
      end
    | None => None
    end
  end
(** the members of an object after [{] or [,]: a later duplicate of a
    name replaces the earlier value *)
with members (fuel : nat) (acc : gmap jsstring value) (s : jsstring)
    : option (value * jsstring) :=
  match fuel with
  | O => None
  | S fuel' =>
    match skip_ws s with
    | 34 :: s1 =>
      match string_body [] s1 with
      | Some (k, s2) =>
        match skip_ws s2 with
        | 58 :: s3 =>
          match value_at fuel' s3 with
          | Some (v, r) =>
            match skip_ws r with
            | 44 :: r' => members fuel' (<[k := v]> acc) r'
            | 125 :: r' => Some (VObj (<[k := v]> acc), r')
            | _ => None
            end
          | None => None
          end
        | _ => None
        end
      | None => None
      end
    | _ => None
    end
  end.

(** [JSON.parse(text)]: [None] is a SyntaxError. *)
Definition parse (text : jsstring) : option value :=
  match value_at (2 * length text + 2) text with
  | Some (v, r) =>
    match skip_ws r with
    | [] => Some v
    | _ :: _ => None
    end
  | None => None
  end.

End JSON.

(** ** [analyzeVideoAndCreateRevivalPlan] *)

(** The pattern of the source: [<thinking>], group 1 (a lazy run of any
    code units), then [</thinking>] or the end of the input. *)
Definition thinking_re : regex :=
  Seq (lit (js "<thinking>"))
    (Seq (Grp 1 (Star false cls_any))
       (Alt (lit (js "</thinking>")) Eol)).

(** The variables of the stream loop, and the calls of [onThinking] so far,
    oldest first. [None] is [undefined]. *)
Record loop_state : Type := MkLoop {
  fullText : jsstring;
  thinkingText : option jsstring;
  emitted : list (option jsstring)
}.

Definition loop_init : loop_state :=
  {| fullText := []; thinkingText := Some []; emitted := [] |}.

(** One turn of [for await (const chunk of responseStream)]; [text] is
    [chunk.text], [undefined] when the chunk has no text part. *)
Definition loop_step (st : loop_state) (text : option jsstring) : loop_state :=
  let full :=
    match text with
    | Some (c :: t) => fullText st ++ c :: t
    | Some [] | None => fullText st
    end in
  match str_match false thinking_re full with
  | Some thinkingMatch =>
    let t := groups thinkingMatch !! 1%nat in
    {| fullText := full; thinkingText := t; emitted := emitted st ++ [t] |}
  | None =>
    if includes (js "<thinking>") full then
      let t :=
        match split (js "<thinking>") full !! 1%nat with
        | Some (c :: p) => Some (c :: p)
        | Some [] | None => Some []
        end in
      {| fullText := full; thinkingText := t; emitted := emitted st ++ [t] |}
    else
      {| fullText := full; thinkingText := thinkingText st;
         emitted := emitted st |}
  end.

Definition stream_loop (st : loop_state) (chunks : list (option jsstring))
    : loop_state :=
  fold_left loop_step chunks st.

(** The pattern of the source, with the i flag: three backticks, an
    optional [json], a greedy run of [\s], group 1 (a lazy run of any code
    units), a greedy run of [\s], three backticks. *)
Definition json_re : regex :=
  Seq (lit (js "```"))
    (Seq (Opt (lit (js "json")))
       (Seq (Star true cls_space)
          (Seq (Grp 1 (Star false cls_any))
             (Seq (Star true cls_space) (lit (js "```")))))).

Definition no_json_block : exn :=
  Error "Failed to parse JSON response from model output. The model did not return a valid JSON block.".

Definition bad_json : exn :=
  Error "Failed to parse the JSON returned by the AI.".

Definition RevivalStrategy_key : jsstring := js "RevivalStrategy".
Definition revivalStrategy_key : jsstring := js "revivalStrategy".
Definition originalVideoMetadata_key : jsstring := js "originalVideoMetadata".

(** The value of a property read in a condition, when it is truthy. *)
Definition if_truthy (o : option value) : option value :=
  match o with
  | Some v => if truthy v then Some v else None
  | None => None
  end.

(** The unwrapping step: [strategy] after the two tests. *)
Definition unwrap (parsedData : value) : result value :=
  upper ← get parsedData RevivalStrategy_key;
  match if_truthy upper with
  | Some v => Ok v
  | None =>
    lower ← get parsedData revivalStrategy_key;
    match if_truthy lower with
    | Some w => Ok w
    | None => Ok parsedData
    end
  end.

Definition default_metadata : value :=
  VObj (<[js "title" := VStr (js "Unknown Title")]>
       (<[js "publishDate" := VStr (js "Unknown Date")]>
       (<[js "currentViews" := VNum (S754_zero false)]> ∅))).

(** The validation step: the metadata is attached where it is missing. *)
Definition repair (strategy : value) : result value :=
  meta ← get strategy originalVideoMetadata_key;
  if truthy_opt meta then Ok strategy
  else set strategy originalVideoMetadata_key default_metadata.

(** What follows [JSON.parse]. *)
Definition post_parse (parsedData : value) : result value :=
  strategy ← unwrap parsedData;
  repair strategy.

(** What follows the loop. A group that took no part is [undefined], which
    [JSON.parse] reads as the text [undefined]. *)
Definition finalize (fullText : jsstring) : result value :=
  match str_match true json_re fullText with
  | None => Throw no_json_block
  | Some jsonMatch =>
    let jsonStr := default (js "undefined") (groups jsonMatch !! 1%nat) in
    match JSON.parse jsonStr with
    | None => Throw bad_json
    | Some parsedData => post_parse parsedData
    end
  end.

(** The function from the response stream on: the calls of [onThinking] and
    the outcome. The stream is the list of the [chunk.text] it delivers. *)
Definition analyzeVideoAndCreateRevivalPlan (chunks : list (option jsstring))
    : list (option jsstring) * result value :=
  let st := stream_loop loop_init chunks in
  (emitted st, finalize (fullText st)).

(** ** [generateVisualOverlay] *)

(** A frame, as the application passes it on: [{ mimeType: string; data:
    string }]. *)
Record Blob : Type := MkBlob {
  mimeType : jsstring;
  data : jsstring
}.

(** Modelled from the spec: the response types of the provider's SDK are not
    in the repository. Inline data is a mime type and encoded bytes, each of
    which the provider may leave out; a part carries inline data or not;
    candidates, content and parts are optional, as the optional chaining of
    the source has them. *)
Module Sdk.

Record Blob : Type := MkBlob {
  mimeType : option jsstring;
  data : option jsstring
}.

End Sdk.

Record Part : Type := MkPart {
  inlineData : option Sdk.Blob
}.

Record Content : Type := MkContent {
  parts : option (list Part)
}.

Record Candidate : Type := MkCandidate {
  content : option Content
}.

Record GenerateContentResponse : Type := MkResponse {
  candidates : option (list Candidate)
}.

Definition no_image : exn := Error "No image generated".

(** [response.candidates?.[0]?.content?.parts] *)
Definition response_parts (response : GenerateContentResponse)
    : option (list Part) :=
  cs ← candidates response;
  c ← cs !! 0%nat;
  ct ← content c;
  parts ct.

(** A value inside a template literal: a missing one reads [undefined]. *)
Definition template (x : option jsstring) : jsstring :=
  default (js "undefined") x.

Definition data_url (blob : Sdk.Blob) : jsstring :=
  js "data:" ++ template (Sdk.mimeType blob) ++ js ";base64," ++
  template (Sdk.data blob).

(** [for (const part of parts)]: the first part with inline data whose mime
    type starts with [image/] returns. Inline data without a mime type
    throws: [startsWith] is read from [undefined]. *)
Fixpoint first_image (ps : list Part) : result (option jsstring) :=
  match ps with
  | [] => Ok None
  | part :: ps' =>
    match inlineData part with
    | Some blob =>
      match Sdk.mimeType blob with
      | Some mime =>
        if startsWith (js "image/") mime then Ok (Some (data_url blob))
        else first_image ps'
      | None => Throw TypeError
      end
    | None => first_image ps'
    end
  end.

(** The function from the provider's response on. *)
Definition generateVisualOverlay (response : GenerateContentResponse)
    : result jsstring :=
  match response_parts response with
  | Some ps =>
    found ← first_image ps;
    match found with
    | Some url => Ok url
    | None => Throw no_image
    end
  | None => Throw no_image
  end.

(** ** [getYoutubeVideoId] *)

(** The pattern of the source: from the start, a greedy run of [.], group 1
    (one of [youtu.be/] with an unescaped dot, [v/], [u/\w/], [embed/],
    [watch?v=], [&v=]), group 2 (a greedy run of code units other than
    [#], [&], [?]), and a greedy run of [.]. *)
Definition youtube_re : regex :=
  Seq Bol
    (Seq (Star true cls_dot)
       (Seq (Grp 1
               (Alt (Seq (lit (js "youtu")) (Seq (Cls cls_dot) (lit (js "be/"))))
               (Alt (lit (js "v/"))
               (Alt (Seq (lit (js "u/")) (Seq (Cls cls_word) (lit (js "/"))))
               (Alt (lit (js "embed/"))
               (Alt (lit (js "watch?v="))
                    (lit (js "&v="))))))))
          (Seq (Grp 2 (Star true cls_id))
             (Star true cls_dot)))).

(** [Ok None] is [null]; reading [length] of a group that took no part
    would throw. *)
Definition getYoutubeVideoId (url : jsstring) : result (option jsstring) :=
  match str_match false youtube_re url with
  | None => Ok None
  | Some m =>
    match groups m !! 2%nat with
    | Some id => if Nat.eqb (length id) 11 then Ok (Some id) else Ok None
    | None => Throw TypeError
    end
  end.

(** ** The dashboard *)

(** [types.ts]. An index is an integer-valued number. *)
Record Segment : Type := MkSegment {
  startTime : jsstring;
  endTime : jsstring;
  summary : jsstring;
  subjects : list jsstring;
  needsUpdate : option bool
}.

Record OutdatedItem : Type := MkOutdatedItem {
  subject : jsstring;
  oldTool : jsstring;
  newTool : jsstring;
  reason : jsstring;
  impactScore : number;
  affectedSegmentIndices : option (list Z)
}.

Record VideoMetadata : Type := MkVideoMetadata {
  title : jsstring;
  publishDate : jsstring;
  currentViews : number
}.

Record RevivalPlan : Type := MkRevivalPlan {
  plan_title : jsstring;
  plan_description : jsstring;
  scriptOutline : jsstring
}.

Record RevivalStrategy : Type := MkRevivalStrategy {
  originalVideoMetadata : option VideoMetadata;
  segments : list Segment;
  outdatedItems : list OutdatedItem;
  revivalPlan : option RevivalPlan;
  revivalSummary : option jsstring;
  predictedViews : number;
  predictedEngagement : number
}.

(** [item.affectedSegmentIndices || []] *)
Definition indices_of (item : OutdatedItem) : list Z :=
  default [] (affectedSegmentIndices item).

(** [segments[segIdx]]: [undefined] off the array. *)
Definition at_index (segs : list Segment) (segIdx : Z) : option Segment :=
  if (0 <=? segIdx)%Z then segs !! Z.to_nat segIdx else None.

(** [new Set(outdatedItems.flatMap(i => i.affectedSegmentIndices || [])).size] *)
Definition segments_impacted (strategy : RevivalStrategy) : nat :=
  size (list_to_set (flat_map indices_of (outdatedItems strategy)) : gset Z).

(** The [<a>] element of one impacted segment. *)
Record anchor : Type := MkAnchor {
  key : Z;
  href : jsstring;
  anchor_title : jsstring;
  label : jsstring
}.

Section Dashboard.
(** [getTimestampLink] of the component: a link into the video; what it
    computes from the time stamp is of no concern here. *)
Variable getTimestampLink : jsstring → jsstring.

(** The callback of [(item.affectedSegmentIndices || []).map]: the anchor
    of the segment, or [null]. *)
Definition segment_link (segs : list Segment) (segIdx : Z) : option anchor :=
  match at_index segs segIdx with
  | Some segment =>
    Some {| key := segIdx;
            href := getTimestampLink (startTime segment);
            anchor_title := summary segment;
            label := startTime segment |}
  | None => None
  end.

(** The children of the "Impacted Segments" cell of one item. *)
Definition impacted_segment_links (strategy : RevivalStrategy)
    (item : OutdatedItem) : list (option anchor) :=
  map (segment_link (segments strategy)) (indices_of item).
End Dashboard.

(** ** Specification-side definitions *)

Local Close Scope N_scope.
Local Open Scope string_scope.
Local Open Scope list_scope.

Definition open_tag : jsstring := js "<thinking>".
Definition close_tag : jsstring := js "</thinking>".
Definition fence : jsstring := js "```".

(** What follows the first occurrence of [pat] in [s]. *)
Fixpoint after (pat s : jsstring) : option jsstring :=
  if startsWith pat s then Some (drop (length pat) s)
  else
    match s with
    | [] => None
    | _ :: s' => after pat s'
    end.

(** What precedes the first occurrence of [pat] in [s]; all of [s] when
    there is none. *)
Fixpoint before (pat s : jsstring) : jsstring :=
  if startsWith pat s then []
  else
    match s with
    | [] => []
    | c :: s' => c :: before pat s'
    end.

(** The narrative of a buffer in the words of the specification: with an
    opening and a closing tag, the text strictly between the first opening
    tag and the first closing tag after it; with an opening tag only, the
    text after it; with no opening tag, nothing. *)
Definition narrative (buffer : jsstring) : option jsstring :=
  before close_tag <$> after open_tag buffer.

(** A buffer holds a fenced block when it holds two (disjoint) fences. *)
Definition has_fenced_block (buffer : jsstring) : Prop :=
  ∃ a b c, buffer = a ++ fence ++ b ++ fence ++ c.

(** The groups a successful match of [r] is sure to define. *)
Fixpoint binds (r : regex) (n : nat) : bool :=
  match r with
  | Grp m r1 => Nat.eqb n m || binds r1 n
  | Seq r1 r2 => binds r1 n || binds r2 n
  | Alt r1 r2 => binds r1 n && binds r2 n
  | Eps | Chr _ | Cls _ | Opt _ | Star _ _ | Bol | Eol => false
  end.

(** The double of an integer. *)
Definition num (z : Z) : number := binary_normalize 53 1024 z 0 false.

(** What a chunk appends to the buffer: its text, when it has one. *)
Definition appended (text : option jsstring) : jsstring := default [] text.

(** The fragments of the end-to-end scenario. *)
Definition scenario : list (option jsstring) :=
  [ Some (js "<thi");
    Some (js "nking>Step 1...");
    Some (js " Step 2.</thinking>");
    Some (js "```json" ++ [10%N] ++
          jsq "{'segments':[],'outdatedItems':[],'predictedViews':100,'predictedEngagement':50}" ++
          [10%N] ++ js "```") ].

(** [has_fenced_block] as a test. *)
Definition fence_pair (buffer : jsstring) : bool :=
  match after fence buffer with
  | Some a => includes fence a
  | None => false
  end.

(** Whether a value has the property [k] (of its own). *)
Definition has_property (v : value) (k : jsstring) : bool :=
  match v with
  | VObj fields => bool_decide (is_Some (fields !! k))
  | VArr _ props => bool_decide (is_Some (props !! k))
  | VNull | VBool _ | VNum _ | VStr _ => false
  end.

(** *** Well-formed payloads: the interfaces of [types.ts] on parsed JSON,
    read as exact object types (the structure the prompt asks for) *)

Definition is_string (v : value) : bool :=
  match v with VStr _ => true | _ => false end.

Definition is_number (v : value) : bool :=
  match v with VNum _ => true | _ => false end.

Definition is_boolean (v : value) : bool :=
  match v with VBool _ => true | _ => false end.

Definition is_array (p : value → bool) (v : value) : bool :=
  match v with VArr elems _ => forallb p elems | _ => false end.

Definition required (p : value → bool) (fields : gmap jsstring value)
    (k : string) : bool :=
  match fields !! js k with Some v => p v | None => false end.

Definition optional (p : value → bool) (fields : gmap jsstring value)
    (k : string) : bool :=
  match fields !! js k with Some v => p v | None => true end.

Definition only_keys (ks : list string) (fields : gmap jsstring value)
    : bool :=
  bool_decide (dom fields ⊆ list_to_set (js <$> ks)).

Definition is_Segment (v : value) : bool :=
  match v with
  | VObj f =>
    required is_string f "startTime" && required is_string f "endTime" &&
    required is_string f "summary" &&
    required (is_array is_string) f "subjects" &&
    optional is_boolean f "needsUpdate" &&
    only_keys ["startTime"; "endTime"; "summary"; "subjects"; "needsUpdate"] f
  | _ => false
  end.

Definition is_OutdatedItem (v : value) : bool :=
  match v with
  | VObj f =>
    required is_string f "subject" && required is_string f "oldTool" &&
    required is_string f "newTool" && required is_string f "reason" &&
    required is_number f "impactScore" &&
    optional (is_array is_number) f "affectedSegmentIndices" &&
    only_keys ["subject"; "oldTool"; "newTool"; "reason"; "impactScore";
               "affectedSegmentIndices"] f
  | _ => false
  end.

Definition is_VideoMetadata (v : value) : bool :=
  match v with
  | VObj f =>
    required is_string f "title" && required is_string f "publishDate" &&
    required is_number f "currentViews" &&
    only_keys ["title"; "publishDate"; "currentViews"] f
  | _ => false
  end.

Definition is_RevivalPlan (v : value) : bool :=
  match v with
  | VObj f =>
    required is_string f "title" && required is_string f "description" &&
    required is_string f "scriptOutline" &&
    only_keys ["title"; "description"; "scriptOutline"] f
  | _ => false
  end.

Definition is_RevivalStrategy (v : value) : bool :=
  match v with
  | VObj f =>
    optional is_VideoMetadata f "originalVideoMetadata" &&
    required (is_array is_Segment) f "segments" &&
    required (is_array is_OutdatedItem) f "outdatedItems" &&
    optional is_RevivalPlan f "revivalPlan" &&
    optional is_string f "revivalSummary" &&
    required is_number f "predictedViews" &&
    required is_number f "predictedEngagement" &&
    only_keys ["originalVideoMetadata"; "segments"; "outdatedItems";
               "revivalPlan"; "revivalSummary"; "predictedViews";
               "predictedEngagement"] f
  | _ => false
  end.

(** The structure example of the prompt, parsed. *)
Definition schema_example : value :=
  VObj (list_to_map
    [ (js "originalVideoMetadata",
       VObj (list_to_map
         [ (js "title", VStr (js "Video Title"));
           (js "publishDate", VStr (js "2023-01-01"));
           (js "currentViews", VNum (num 15000)) ]));
      (js "segments",
       VArr [ VObj (list_to_map
                [ (js "startTime", VStr (js "00:00:00"));
                  (js "endTime", VStr (js "00:02:30"));
                  (js "summary", VStr (js "Intro to topic"));
                  (js "subjects",
                   VArr [VStr (js "React"); VStr (js "Class Components")] ∅);
                  (js "needsUpdate", VBool true) ]) ] ∅);
      (js "outdatedItems",
       VArr [ VObj (list_to_map
                [ (js "subject", VStr (js "State Management"));
                  (js "oldTool", VStr (js "Redux (Old Style)"));
                  (js "newTool", VStr (js "Redux Toolkit"));
                  (js "reason", VStr (js "Redux Toolkit reduces boilerplate..."));
                  (js "impactScore", VNum (num 8));
                  (js "affectedSegmentIndices", VArr [VNum (num 0)] ∅) ]) ] ∅);
      (js "revivalPlan",
       VObj (list_to_map
         [ (js "title", VStr (js "New Optimized Title"));
           (js "description", VStr (js "New Description..."));
           (js "scriptOutline", VStr (js "Markdown content...")) ]));
      (js "predictedViews", VNum (num 50000));
      (js "predictedEngagement", VNum (num 85)) ]).

(** A strategy of two segments and one item that points at segments 0
    and 5. *)
Definition two_segments : RevivalStrategy :=
  {| originalVideoMetadata := None;
     segments :=
       [ MkSegment (js "00:00") (js "01:00") (js "Intro") [] None;
         MkSegment (js "01:00") (js "02:00") (js "Setup") [] None ];
     outdatedItems :=
       [ MkOutdatedItem (js "State") (js "Redux") (js "Redux Toolkit")
           (js "less code") (num 8) (Some [0; 5]%Z) ];
     revivalPlan := None;
     revivalSummary := None;
     predictedViews := num 100;
     predictedEngagement := num 50 |}.

(** The continuation got a suffix and the captures as they were. *)
Ltac same_caps :=
  split; [first [done | by apply suffix_cons_r] |
          split; [done | intros ? [?|?]; done]].

(** ** More of the code: definitions *)

(** The text a stream delivers: its chunk texts, in order. *)
Definition stream_text (chunks : list (option jsstring)) : jsstring :=
  concat (appended <$> chunks).

(** The label of a fenced block: none, or [json] in any case. *)
Definition json_label (label : jsstring) : bool :=
  match label with
  | [] => true
  | _ :: _ => bool_decide (canonicalize <$> label = js "JSON")
  end.

(** Without label and white space, a block that starts with [j] or [J] could
    lend its first letters to the optional label of the pattern. *)
Definition no_label_clash (label sp body : jsstring) : bool :=
  match label, sp, body with
  | [], [], c :: _ => negb (N.eqb (canonicalize c) 74)
  | _, _, _ => true
  end.

(** A code unit that is there and is no white space. *)
Definition no_space_at (o : option N) : bool :=
  match o with
  | Some c => negb (cls_space c)
  | None => false
  end.

Definition no_backtick (s : jsstring) : bool :=
  forallb (λ c, negb (N.eqb c 96)) s.

(** Where a run of the class [p] stops: at the end, or at a code unit
    outside the class. *)
Definition stops (p : N → bool) (r : jsstring) : Prop :=
  match r with
  | [] => True
  | c :: _ => p c = false
  end.

(** The words a pattern can consume, whatever the position and the
    priorities: the regular language of the pattern. *)
Fixpoint lang (ignoreCase : bool) (r : regex) (w : jsstring) : Prop :=
  match r with
  | Eps | Bol | Eol => w = []
  | Chr pc => ∃ c, w = [c] ∧ chr_matches ignoreCase pc c = true
  | Cls p => ∃ c, w = [c] ∧ p c = true
  | Seq r1 r2 =>
    ∃ w1 w2, w = w1 ++ w2 ∧ lang ignoreCase r1 w1 ∧ lang ignoreCase r2 w2
  | Alt r1 r2 => lang ignoreCase r1 w ∨ lang ignoreCase r2 w
  | Opt r1 => w = [] ∨ lang ignoreCase r1 w
  | Star _ p => Forall (λ c, p c = true) w
  | Grp _ r1 => lang ignoreCase r1 w
  end.

(** Group 1 of the pattern of [getYoutubeVideoId]. *)
Definition marker_re : regex :=
  Grp 1
    (Alt (Seq (lit (js "youtu")) (Seq (Cls cls_dot) (lit (js "be/"))))
    (Alt (lit (js "v/"))
    (Alt (Seq (lit (js "u/")) (Seq (Cls cls_word) (lit (js "/"))))
    (Alt (lit (js "embed/"))
    (Alt (lit (js "watch?v="))
         (lit (js "&v="))))))).

(** What group 1 can be. *)
Definition is_marker (mk : jsstring) : Prop :=
  (∃ x, cls_dot x = true ∧ mk = js "youtu" ++ x :: js "be/") ∨
  mk = js "v/" ∨
  (∃ w, cls_word w = true ∧ mk = js "u/" ++ w :: js "/") ∨
  mk = js "embed/" ∨
  mk = js "watch?v=" ∨
  mk = js "&v=".

(** The markers as they are written in links. *)
Definition link_markers : list jsstring :=
  [js "youtu.be/"; js "v/"; js "embed/"; js "watch?v="; js "&v="].

(** The code units of a video identifier: letters, digits, [_] and [-]. *)
Definition id_char (c : N) : bool := cls_word c || N.eqb c 45.

(** What may follow the identifier in a link: nothing, or a part that starts
    with [#], [&] or [?] and holds neither a slash nor [v=]. *)
Definition link_tail (rest : jsstring) : bool :=
  match rest with
  | [] => true
  | c :: _ =>
    negb (cls_id c) && negb (includes (js "/") rest) &&
    negb (includes (js "v=") rest)
  end.

(** *** [handleGenerateOverlay] and [handleStartAnalysis]: the frames *)

(** The frame the overlay is made from:
    [frames[Math.min(frames.length - 1, Math.floor(frames.length / 2))]]
    when there are frames, [null] otherwise. *)
Definition frameToUse (frames : list Blob) : option Blob :=
  match frames with
  | [] => None
  | _ :: _ => frames !! Nat.min (length frames - 1) (length frames / 2)
  end.

(** The frames [handleStartAnalysis] hands on to the analysis and to the
    dashboard: none when the link is empty, where the handler returns at
    once. The thumbnail of a video is what the fetch delivers, [None] when
    it fails; the placeholder is what the canvas draws. *)
Definition contextFrames (youtubeLink : jsstring)
    (getYoutubeThumbnail : jsstring → option Blob)
    (generatePlaceholderFrame : Blob) : result (option (list Blob)) :=
  match youtubeLink with
  | [] => Ok None
  | _ :: _ =>
    videoId ← getYoutubeVideoId youtubeLink;
    match videoId with
    | Some (c :: v) =>
      match getYoutubeThumbnail (c :: v) with
      | Some thumbnail => Ok (Some [thumbnail])
      | None => Ok (Some [generatePlaceholderFrame])
      end
    | Some [] | None => Ok (Some [generatePlaceholderFrame])
    end
  end.

(** Spec side: the parts of a response are those of its first candidate; a
    response without candidates, a candidate without content and a content
    without parts have none. *)
Definition first_candidate_parts (response : GenerateContentResponse)
    : list Part :=
  match candidates response with
  | Some (MkCandidate (Some (MkContent (Some ps))) :: _) => ps
  | _ => []
  end.

(** Spec side: a part whose inline data has an image mime type. *)
Definition image_part (part : Part) : Prop :=
  ∃ subtype bytes,
    inlineData part
      = Some (Sdk.MkBlob (Some (js "image/" ++ subtype)) bytes).

(** Spec side: a part whose inline data has no mime type. *)
Definition untyped_part (part : Part) : Prop :=
  ∃ bytes, inlineData part = Some (Sdk.MkBlob None bytes).

(** Spec side: a part that is neither: it has no inline data, or inline data
    of another mime type. *)
Definition other_part (part : Part) : Prop :=
  ¬ image_part part ∧ ¬ untyped_part part.

(** Spec side: the data URL of an image of the given subtype; missing bytes
    read [undefined]. *)
Definition image_url (subtype : jsstring) (bytes : option jsstring)
    : jsstring :=
  js "data:image/" ++ subtype ++ js ";base64," ++
  match bytes with
  | Some b => b
  | None => js "undefined"
  end.

(** A boolean, a number or a string. *)
Definition is_primitive (v : value) : bool :=
  match v with
  | VBool _ | VNum _ | VStr _ => true
  | VNull | VArr _ _ | VObj _ => false
  end.

(** ** Strings: prefixes and first occurrences *)

Lemma startsWith_prefix (p s : jsstring) :
  startsWith p s = true ↔ ∃ t, s = p ++ t.
Proof.
  revert s. induction p as [|a p IH]; intros s; simpl.
  - split; [intros _; by exists s | done].
  - destruct s as [|b s].
    + split; [done | intros [t Ht]; discriminate].
    + rewrite andb_true_iff, N.eqb_eq, IH. split.
      * intros [-> [t ->]]. by exists t.
      * intros [t Ht]. injection Ht as -> ->. eauto.
Qed.

Lemma startsWith_drop (p s : jsstring) :
  startsWith p s = true → s = p ++ drop (length p) s.
Proof.
  intros [t ->]%startsWith_prefix. by rewrite drop_app_length.
Qed.

Lemma startsWith_length (p s : jsstring) :
  startsWith p s = true → length p ≤ length s.
Proof.
  intros [t ->]%startsWith_prefix. rewrite length_app. lia.
Qed.

Lemma startsWith_app (p s e : jsstring) :
  startsWith p s = true → startsWith p (s ++ e) = true.
Proof.
  intros [t ->]%startsWith_prefix. apply startsWith_prefix.
  exists (t ++ e). by rewrite app_assoc.
Qed.

Lemma startsWith_app_long (p s e : jsstring) :
  length p ≤ length s → startsWith p (s ++ e) = startsWith p s.
Proof.
  revert s. induction p as [|a p IH]; intros s Hlen; [done|].
  destruct s as [|b s]; simpl in *; [lia|].
  rewrite IH by lia. done.
Qed.

Lemma after_unfold (p s : jsstring) :
  after p s =
    if startsWith p s then Some (drop (length p) s)
    else match s with [] => None | _ :: s' => after p s' end.
Proof. by destruct s. Qed.

Lemma before_unfold (p s : jsstring) :
  before p s =
    if startsWith p s then []
    else match s with [] => [] | c :: s' => c :: before p s' end.
Proof. by destruct s. Qed.

Lemma after_length (p s a : jsstring) :
  after p s = Some a → length p ≤ length s.
Proof.
  induction s as [|c s IH]; rewrite after_unfold;
    destruct (startsWith p _) eqn:Hp; try done.
  - intros _. by apply startsWith_length.
  - intros _. by apply startsWith_length.
  - intros Ha%IH. simpl. lia.
Qed.

(** Appending to the buffer does not move the first occurrence. *)
Lemma after_app (p s a e : jsstring) :
  after p s = Some a → after p (s ++ e) = Some (a ++ e).
Proof.
  induction s as [|c s IH]; intros Ha.
  - pose proof (after_length _ _ _ Ha) as Hl. destruct p; [|simpl in Hl; lia].
    rewrite after_unfold in Ha. simpl in Ha. injection Ha as <-.
    by rewrite after_unfold.
  - pose proof (after_length _ _ _ Ha) as Hl.
    rewrite after_unfold in Ha. rewrite after_unfold.
    rewrite startsWith_app_long by done.
    destruct (startsWith p (c :: s)) eqn:Hp.
    + injection Ha as <-. f_equal. rewrite drop_app_le; done.
    + simpl. by apply IH.
Qed.

(** The first occurrence of [p] is at or before any given one. *)
Lemma after_occurrence (p pre rest : jsstring) :
  ∃ x, after p (pre ++ p ++ rest) = Some (x ++ rest).
Proof.
  induction pre as [|c pre [x IH]].
  - exists []. rewrite after_unfold. simpl.
    assert (startsWith p (p ++ rest) = true) as ->
      by (apply startsWith_prefix; eauto).
    by rewrite drop_app_length.
  - rewrite after_unfold.
    destruct (startsWith p ((c :: pre) ++ p ++ rest)) eqn:Hp.
    + apply startsWith_length in Hp as Hl.
      destruct (decide (length p ≤ length (c :: pre))) as [Hle|Hgt].
      * exists (drop (length p) (c :: pre) ++ p).
        rewrite drop_app_le by done. by rewrite <- app_assoc.
      * exists (drop (length p) ((c :: pre) ++ p)).
        rewrite (app_assoc (c :: pre)), drop_app_le; [done|].
        rewrite length_app. lia.
    + exists x. simpl. done.
Qed.

(** Once a closing tag is in, what precedes it no longer depends on what
    follows. *)
Lemma before_app (p x y : jsstring) :
  before p (x ++ p ++ y) = before p (x ++ p).
Proof.
  induction x as [|c x IH].
  - simpl. rewrite (before_unfold p (p ++ y)), (before_unfold p p).
    assert (startsWith p (p ++ y) = true) as ->
      by (apply startsWith_prefix; eauto).
    assert (startsWith p (p ++ []) = true) as Hp
      by (apply startsWith_prefix; eauto).
    rewrite app_nil_r in Hp. by rewrite Hp.
  - rewrite (before_unfold p ((c :: x) ++ p ++ y)).
    rewrite (before_unfold p ((c :: x) ++ p)).
    rewrite (app_assoc (c :: x)), startsWith_app_long
      by (rewrite length_app; lia).
    destruct (startsWith p ((c :: x) ++ p)); [done|].
    simpl. rewrite <- app_assoc. by rewrite IH.
Qed.

Lemma includes_after (p s : jsstring) :
  includes p s = true ↔ is_Some (after p s).
Proof.
  induction s as [|c s IH]; rewrite after_unfold; simpl.
  - destruct (startsWith p []); simpl; split; try done; eauto.
  - destruct (startsWith p (c :: s)); simpl; [split; eauto|]. done.
Qed.

Lemma before_take (p s : jsstring) :
  take (length (before p s)) s = before p s.
Proof.
  induction s as [|c s IH]; rewrite before_unfold;
    destruct (startsWith p _); simpl; try done.
  by rewrite IH.
Qed.

Lemma consumed_drop (s : jsstring) (n : nat) :
  n ≤ length s → consumed s (drop n s) = take n s.
Proof.
  intros Hn. unfold consumed. rewrite length_drop. f_equal. lia.
Qed.

Lemma before_length (p s : jsstring) : length (before p s) ≤ length s.
Proof.
  induction s as [|c s IH]; rewrite before_unfold;
    destruct (startsWith p _); simpl; lia.
Qed.

(** ** The matcher *)

Section MatcherFacts.
Context {A : Type}.
Implicit Types (k : jsstring → captures → option A).

(** Without the i flag a literal is a prefix test. *)
Lemma run_lit subject p inp caps k :
  run false subject (lit p) inp caps k =
    if startsWith p inp then k (drop (length p) inp) caps else None.
Proof.
  revert inp. induction p as [|a p IH]; intros inp; [done|].
  destruct inp as [|c inp]; [done|]. simpl.
  destruct (N.eqb a c); simpl; [apply IH | done].
Qed.

Lemma chr_matches_backtick c : chr_matches true 96 c = true → c = 96%N.
Proof.
  unfold chr_matches. change (canonicalize 96) with 96%N.
  unfold canonicalize.
  destruct (N.leb 97 c && N.leb c 122) eqn:Hr; rewrite N.eqb_eq; [|done].
  apply andb_true_iff in Hr as [H1%N.leb_le H2%N.leb_le]. lia.
Qed.

(** With the i flag three backticks still are three backticks. *)
Lemma run_fence_ci subject inp caps k x :
  run true subject (lit fence) inp caps k = Some x →
  ∃ rest, inp = fence ++ rest ∧ k rest caps = Some x.
Proof.
  change fence with [96; 96; 96]%N. cbn [lit run].
  destruct inp as [|c1 inp]; [done|].
  destruct (chr_matches true 96 c1) eqn:E1; [|done].
  destruct inp as [|c2 inp]; [done|].
  destruct (chr_matches true 96 c2) eqn:E2; [|done].
  destruct inp as [|c3 inp]; [done|].
  destruct (chr_matches true 96 c3) eqn:E3; [|done].
  apply chr_matches_backtick in E1, E2, E3. subst. intros Hk. by exists inp.
Qed.

Lemma star_suffix greedy p inp (K : jsstring → option A) x :
  star greedy p inp K = Some x →
  ∃ rest, rest `suffix_of` inp ∧ K rest = Some x.
Proof.
  induction inp as [|c inp IH]; simpl.
  - intros HK. by exists [].
  - destruct (p c); [|intros HK; by exists (c :: inp)].
    destruct greedy.
    + destruct (star true p inp K) eqn:Hs.
      * intros [= ->]. destruct (IH eq_refl) as (rest & Hsuf & HK).
        exists rest. split; [by apply suffix_cons_r | done].
      * intros HK. by exists (c :: inp).
    + destruct (K (c :: inp)) eqn:HK.
      * intros [= ->]. by exists (c :: inp).
      * intros Hs. destruct (IH Hs) as (rest & Hsuf & HK').
        exists rest. split; [by apply suffix_cons_r | done].
Qed.

(** What a successful run hands to its continuation: a suffix of the
    input, and captures that hold the earlier groups and the groups the
    pattern binds. *)
Lemma run_sound ic subject r : ∀ inp caps k x,
  run ic subject r inp caps k = Some x →
  ∃ rest caps', rest `suffix_of` inp ∧ k rest caps' = Some x ∧
    ∀ n, is_Some (caps !! n) ∨ binds r n = true → is_Some (caps' !! n).
Proof.
  induction r as [|pc|p|r1 IH1 r2 IH2|r1 IH1 r2 IH2|r1 IH1|g p|m r1 IH1| |];
    intros inp caps k x; simpl.
  - intros Hk. exists inp, caps. same_caps.
  - destruct inp as [|c inp]; [done|].
    destruct (chr_matches ic pc c); [|done]. intros Hk.
    exists inp, caps. same_caps.
  - destruct inp as [|c inp]; [done|].
    destruct (p c); [|done]. intros Hk.
    exists inp, caps. same_caps.
  - intros (rest1 & caps1 & Hs1 & Hk1 & Hc1)%IH1.
    apply IH2 in Hk1 as (rest2 & caps2 & Hs2 & Hk2 & Hc2).
    exists rest2, caps2. split; [by etrans|]. split; [done|].
    intros n [Hn|[Hn|Hn]%orb_true_iff]; apply Hc2; eauto.
  - destruct (run ic subject r1 inp caps k) eqn:H1.
    + intros [= ->]. apply IH1 in H1 as (rest & caps' & Hs & Hk & Hc).
      exists rest, caps'. split; [done|]. split; [done|].
      intros n [Hn|[Hn _]%andb_true_iff]; apply Hc; eauto.
    + intros (rest & caps' & Hs & Hk & Hc)%IH2.
      exists rest, caps'. split; [done|]. split; [done|].
      intros n [Hn|[_ Hn]%andb_true_iff]; apply Hc; eauto.
  - destruct (run ic subject r1 inp caps k) eqn:H1.
    + intros [= ->]. apply IH1 in H1 as (rest & caps' & Hs & Hk & Hc).
      exists rest, caps'. split; [done|]. split; [done|].
      intros n [Hn|?]; [apply Hc; eauto | done].
    + intros Hk. exists inp, caps. same_caps.
  - intros (rest & Hs & Hk)%star_suffix. exists rest, caps. same_caps.
  - intros (rest & caps' & Hs & Hk & Hc)%IH1.
    exists rest, (<[m := consumed inp rest]> caps').
    split; [done|]. split; [done|].
    intros n Hn. destruct (decide (n = m)) as [->|Hne].
    + rewrite lookup_insert_eq. eauto.
    + rewrite lookup_insert_ne by done. apply Hc.
      destruct Hn as [Hn|Hn]; [eauto|].
      apply orb_true_iff in Hn as [Hn%Nat.eqb_eq|Hn]; [done | eauto].
  - destruct (Nat.eqb _ _); [|done]. intros Hk.
    exists inp, caps. same_caps.
  - destruct inp; [|done]. intros Hk. exists [], caps. same_caps.
Qed.
End MatcherFacts.

(** A match starts at a suffix of the subject. *)
Lemma scan_start ic subject r inp m :
  scan ic subject r inp = Some m →
  ∃ start, start `suffix_of` inp ∧
    run ic subject r start ∅
      (λ rest caps, Some (MkMatch (consumed start rest) caps)) = Some m.
Proof.
  induction inp as [|c inp IH]; simpl.
  - destruct (run _ _ _ _ _ _) eqn:Hr; [|done]. intros [= ->]. by exists [].
  - destruct (run _ _ _ _ _ _) eqn:Hr.
    + intros [= ->]. by exists (c :: inp).
    + intros (start & Hs & Hrun)%IH. exists start.
      split; [by apply suffix_cons_r | done].
Qed.

(** The groups a pattern binds are defined in every match of it. *)
Lemma str_match_binds ic r s m n :
  str_match ic r s = Some m → binds r n = true → is_Some (groups m !! n).
Proof.
  intros (start & _ & Hrun)%scan_start Hb.
  apply run_sound in Hrun as (rest & caps' & _ & [= <-] & Hc).
  simpl. apply Hc. by right.
Qed.

(** ** The narrative *)

(** The lazy run of the narrative pattern stops where the continuation first
    succeeds: at the first closing tag, or at the end of the input. *)
Lemma star_lazy_until {A : Type} (K : jsstring → option A) (g : jsstring → A) :
  (∀ rest, K rest =
     if startsWith close_tag rest || bool_decide (rest = [])
     then Some (g rest) else None) →
  ∀ a, star false cls_any a K =
         Some (g (drop (length (before close_tag a)) a)).
Proof.
  intros HK a. induction a as [|c a IH].
  - simpl. by rewrite HK.
  - rewrite before_unfold. cbn [star cls_any]. rewrite HK.
    destruct (startsWith close_tag (c :: a)); [done|].
    rewrite bool_decide_eq_false_2 by done. simpl. apply IH.
Qed.

(** The pattern at one position: it matches where an opening tag starts, and
    group 1 is the text up to the first closing tag after it. *)
Lemma thinking_run subject inp :
  run false subject thinking_re inp ∅
    (λ rest caps, Some (MkMatch (consumed inp rest) caps)) =
  if startsWith open_tag inp then
    let a := drop (length open_tag) inp in
    let stop := drop (length (before close_tag a)) a in
    Some (MkMatch
            (consumed inp (if startsWith close_tag stop
                           then drop (length close_tag) stop else stop))
            {[ 1 := before close_tag a ]})
  else None.
Proof.
  unfold thinking_re. cbn [run]. rewrite run_lit. fold open_tag.
  destruct (startsWith open_tag inp) eqn:Hopen; [|done].
  cbv zeta. set (a := drop (length open_tag) inp).
  rewrite (star_lazy_until _
    (λ rest, MkMatch
       (consumed inp (if startsWith close_tag rest
                      then drop (length close_tag) rest else rest))
       (<[1 := consumed a rest]> ∅))).
  - rewrite consumed_drop by apply before_length.
    rewrite before_take. done.
  - intros rest. rewrite run_lit. fold close_tag.
    destruct (startsWith close_tag rest); [done|].
    destruct rest; done.
Qed.

(** [fullText.match(...)]: group 1 is the narrative of the specification. *)
Lemma thinking_scan subject inp :
  match after open_tag inp with
  | Some a =>
    ∃ m, scan false subject thinking_re inp = Some m ∧
         groups m !! 1 = Some (before close_tag a)
  | None => scan false subject thinking_re inp = None
  end.
Proof.
  induction inp as [|c inp IH]; rewrite after_unfold;
    cbn [scan]; rewrite thinking_run.
  - done.
  - destruct (startsWith open_tag (c :: inp)).
    + eexists. split; [reflexivity|]. cbv zeta. cbn [groups].
      by rewrite lookup_singleton_eq.
    + apply IH.
Qed.

Lemma thinking_match (full : jsstring) :
  match narrative full with
  | Some t =>
    ∃ m, str_match false thinking_re full = Some m ∧ groups m !! 1 = Some t
  | None => str_match false thinking_re full = None
  end.
Proof.
  unfold narrative, str_match.
  pose proof (thinking_scan full full) as H.
  by destruct (after open_tag full).
Qed.

(** One turn of the loop in the words of the specification; the
    [includes] branch of the source is never taken. *)
Lemma loop_step_narrative st text :
  loop_step st text =
    let full := fullText st ++ appended text in
    match narrative full with
    | Some t =>
      {| fullText := full; thinkingText := Some t;
         emitted := emitted st ++ [Some t] |}
    | None =>
      {| fullText := full; thinkingText := thinkingText st;
         emitted := emitted st |}
    end.
Proof.
  unfold loop_step.
  assert ((match text with
           | Some (c :: t) => fullText st ++ c :: t
           | _ => fullText st
           end) = fullText st ++ appended text) as ->.
  { destruct text as [[|c t]|]; simpl; by rewrite ?app_nil_r. }
  cbv zeta. pose proof (thinking_match (fullText st ++ appended text)) as H.
  destruct (narrative _) as [t|] eqn:Hn.
  - destruct H as (m & -> & ->). done.
  - rewrite H.
    assert (includes (js "<thinking>") (fullText st ++ appended text) = false)
      as ->; [|done].
    apply not_true_is_false. intros [a Ha]%includes_after.
    unfold narrative in Hn. fold open_tag in Ha. by rewrite Ha in Hn.
Qed.

Lemma narrative_closed (pre mid post : jsstring) :
  ∃ x, ∀ e,
    narrative ((pre ++ open_tag ++ mid ++ close_tag ++ post) ++ e) =
      Some (before close_tag ((x ++ mid) ++ close_tag)).
Proof.
  destruct (after_occurrence open_tag pre (mid ++ close_tag ++ post))
    as [x Hx].
  exists x. intros e. unfold narrative.
  rewrite (after_app _ _ _ e Hx). cbn [fmap option_fmap option_map].
  f_equal. rewrite <- (before_app close_tag (x ++ mid) (post ++ e)).
  by rewrite <- !app_assoc.
Qed.

Lemma after_split (p s a : jsstring) :
  after p s = Some a → ∃ pre, s = pre ++ p ++ a.
Proof.
  induction s as [|c s IH]; rewrite after_unfold;
    destruct (startsWith p _) eqn:Hp; try done.
  - intros [= <-]. exists []. by apply startsWith_drop.
  - intros [= <-]. exists []. by apply startsWith_drop.
  - intros [pre ->]%IH. by exists (c :: pre).
Qed.

Lemma before_split (p y z : jsstring) :
  ∃ z', y ++ p ++ z = before p (y ++ p ++ z) ++ p ++ z'.
Proof.
  induction y as [|c y [z' IH]]; rewrite before_unfold.
  - assert (startsWith p ([] ++ p ++ z) = true) as ->
      by (apply startsWith_prefix; eauto).
    by exists z.
  - destruct (startsWith p ((c :: y) ++ p ++ z)) eqn:Hp.
    + apply startsWith_prefix in Hp as [t Ht]. by exists t.
    + exists z'. simpl. by rewrite <- IH.
Qed.

(** Once the buffer holds an opening tag and a closing tag after it, every
    further turn of the loop emits the same narrative. *)
Lemma stream_loop_frozen (B t : jsstring) :
  (∀ e, narrative (B ++ e) = Some t) →
  ∀ more st e,
    fullText st = B ++ e →
    thinkingText (stream_loop st more) =
      (if more is [] then thinkingText st else Some t) ∧
    emitted (stream_loop st more) =
      emitted st ++ replicate (length more) (Some t).
Proof.
  intros HB more. induction more as [|text more IH]; intros st e Hst.
  - simpl. by rewrite app_nil_r.
  - cbn [stream_loop fold_left]. fold (stream_loop (loop_step st text) more).
    assert (loop_step st text =
            {| fullText := B ++ e ++ appended text; thinkingText := Some t;
               emitted := emitted st ++ [Some t] |}) as Hstep.
    { rewrite loop_step_narrative. cbv zeta.
      by rewrite Hst, <- app_assoc, HB. }
    destruct (IH (loop_step st text) (e ++ appended text)) as [Ht He].
    { by rewrite Hstep. }
    rewrite He, Ht, Hstep. cbn [thinkingText emitted length replicate].
    split; [by destruct more|]. by rewrite <- app_assoc.
Qed.

(** A closing tag that only precedes the opening tag does not close the
    narrative: it still grows with the buffer. *)
Example stray_close_tag_not_final :
  narrative (js "</thinking><thinking>a") = Some (js "a") ∧
  narrative (js "</thinking><thinking>a" ++ js "b") = Some (js "ab").
Proof. vm_compute. done. Qed.

(** ** The stream loop *)

(** C1. The end-to-end scenario: the first fragment emits nothing, the
    narrative then goes from [Step 1...] to [Step 1... Step 2.] and is
    emitted once more unchanged with the last fragment; the outcome is the
    parsed object with empty [segments] and [outdatedItems],
    [predictedViews] 100, [predictedEngagement] 50 and the default
    [originalVideoMetadata] attached. *)
Theorem scenario_end_to_end :
  analyzeVideoAndCreateRevivalPlan scenario =
    ( [ Some (js "Step 1...");
        Some (js "Step 1... Step 2.");
        Some (js "Step 1... Step 2.") ],
      Ok (VObj (list_to_map
        [ (js "segments", VArr [] ∅);
          (js "outdatedItems", VArr [] ∅);
          (js "predictedViews", VNum (num 100));
          (js "predictedEngagement", VNum (num 50));
          (originalVideoMetadata_key,
           VObj (list_to_map
             [ (js "title", VStr (js "Unknown Title"));
               (js "publishDate", VStr (js "Unknown Date"));
               (js "currentViews", VNum (S754_zero false)) ])) ])) ).
Proof. vm_compute. reflexivity. Qed.

(** C5. Once the accumulated buffer holds an opening tag and a closing tag
    after it, the narrative is the text strictly between the first opening
    tag and the first closing tag after it, and every fragment appended
    later leaves it as it is: the loop emits that same text at every
    further turn. *)
Theorem narrative_frozen_after_close st text more pre mid post :
  fullText (loop_step st text) =
    pre ++ open_tag ++ mid ++ close_tag ++ post →
  ∃ t,
    narrative (fullText (loop_step st text)) = Some t ∧
    (∃ pre' post',
       fullText (loop_step st text) =
         pre' ++ open_tag ++ t ++ close_tag ++ post') ∧
    thinkingText (loop_step st text) = Some t ∧
    thinkingText (stream_loop (loop_step st text) more) = Some t ∧
    emitted (stream_loop (loop_step st text) more) =
      emitted (loop_step st text) ++ replicate (length more) (Some t).
Proof.
  intros HB. destruct (narrative_closed pre mid post) as [x Hx].
  rewrite <- HB in Hx.
  set (t := before close_tag ((x ++ mid) ++ close_tag)) in *.
  assert (narrative (fullText (loop_step st text)) = Some t) as Hn.
  { by rewrite <- (Hx []), app_nil_r. }
  assert (thinkingText (loop_step st text) = Some t) as Ht.
  { revert Hn. rewrite loop_step_narrative. cbv zeta.
    destruct (narrative (fullText st ++ appended text)) eqn:E; cbn [fullText].
    - intros Hn. rewrite E in Hn. cbn [thinkingText]. congruence.
    - intros Hn. by rewrite E in Hn. }
  exists t. split; [done|]. split.
  - unfold narrative in Hn.
    destruct (after open_tag (fullText (loop_step st text))) as [a|] eqn:Ha;
      [|done].
    cbn [fmap option_fmap option_map] in Hn.
    assert (before close_tag a = t) as Hb by congruence.
    destruct (after_split _ _ _ Ha) as [pre' Hpre'].
    rewrite HB in Ha.
    destruct (after_occurrence open_tag pre (mid ++ close_tag ++ post))
      as [y Hy].
    assert (a = y ++ mid ++ close_tag ++ post) as -> by congruence.
    destruct (before_split close_tag (y ++ mid) post) as [z Hz].
    rewrite <- !app_assoc in Hz. rewrite Hb in Hz. exists pre', z. by rewrite Hpre', Hz.
  - split; [done|].
    destruct (stream_loop_frozen _ t Hx more (loop_step st text) [])
      as [H1 H2]; [by rewrite app_nil_r|].
    split; [|done]. rewrite H1. by destruct more.
Qed.

Lemma narrative_frozen_witness :
  ∃ t,
    narrative (fullText (loop_step loop_init
                 (Some (js "<thinking>a</thinking>")))) = Some t ∧
    (∃ pre' post',
       fullText (loop_step loop_init (Some (js "<thinking>a</thinking>"))) =
         pre' ++ open_tag ++ t ++ close_tag ++ post') ∧
    thinkingText (loop_step loop_init (Some (js "<thinking>a</thinking>")))
      = Some t ∧
    thinkingText (stream_loop
                    (loop_step loop_init (Some (js "<thinking>a</thinking>")))
                    [Some (js "</thinking>b<thinking>c")]) = Some t ∧
    emitted (stream_loop
               (loop_step loop_init (Some (js "<thinking>a</thinking>")))
               [Some (js "</thinking>b<thinking>c")]) =
      emitted (loop_step loop_init (Some (js "<thinking>a</thinking>"))) ++
      replicate (length [Some (js "</thinking>b<thinking>c")]) (Some t).
Proof.
  apply (narrative_frozen_after_close loop_init
           (Some (js "<thinking>a</thinking>"))
           [Some (js "</thinking>b<thinking>c")] [] (js "a") []).
  vm_compute. reflexivity.
Defined.

(** ** The fenced block *)

Lemma fence_pair_spec (buffer : jsstring) :
  fence_pair buffer = true ↔ has_fenced_block buffer.
Proof.
  unfold fence_pair, has_fenced_block. split.
  - destruct (after fence buffer) as [a|] eqn:Ha; [|done].
    intros [b Hb]%includes_after.
    apply after_split in Ha as [pre ->]. apply after_split in Hb as [mid ->].
    by exists pre, mid, b.
  - intros (a & b & c & ->).
    destruct (after_occurrence fence a (b ++ fence ++ c)) as [x ->].
    apply includes_after.
    destruct (after_occurrence fence (x ++ b) c) as [y Hy].
    rewrite <- app_assoc in Hy. by rewrite Hy.
Qed.

(** A match of the block pattern spans two fences. *)
Lemma json_match_fenced (s : jsstring) (m : match_result) :
  str_match true json_re s = Some m → has_fenced_block s.
Proof.
  intros (start & [pre ->] & Hrun)%scan_start.
  unfold json_re in Hrun. cbn [run] in Hrun.
  apply run_fence_ci in Hrun as (r1 & -> & H1).
  assert (∃ b r, r1 = b ++ fence ++ r) as (b & r & ->).
  { destruct (run true _ (lit (js "json")) r1 ∅ _) as [m'|] eqn:Hjson.
    - apply run_sound in Hjson as (r2 & c2 & [b2 ->] & H2 & _).
      apply star_suffix in H2 as (r3 & [b3 ->] & H3).
      apply star_suffix in H3 as (r4 & [b4 ->] & H4).
      apply star_suffix in H4 as (r5 & [b5 ->] & H5).
      apply run_fence_ci in H5 as (r6 & -> & _).
      exists (b2 ++ b3 ++ b4 ++ b5), r6. by rewrite <- !app_assoc.
    - apply star_suffix in H1 as (r3 & [b3 ->] & H3).
      apply star_suffix in H3 as (r4 & [b4 ->] & H4).
      apply star_suffix in H4 as (r5 & [b5 ->] & H5).
      apply run_fence_ci in H5 as (r6 & -> & _).
      exists (b3 ++ b4 ++ b5), r6. by rewrite <- !app_assoc. }
  by exists pre, b, r.
Qed.

(** *** The pattern finds every fenced block *)

Lemma star_zero {A : Type} greedy p inp (K : jsstring → option A) :
  is_Some (K inp) → is_Some (star greedy p inp K).
Proof.
  intros HK. destruct inp as [|c inp]; [done|]. cbn [star].
  destruct (p c); [|done]. destruct greedy.
  - by destruct (star true p inp K).
  - destruct (K (c :: inp)); [done|]. by destruct HK.
Qed.

Lemma star_complete {A : Type} greedy p pre rest (K : jsstring → option A) :
  Forall (λ c, p c = true) pre →
  is_Some (K rest) → is_Some (star greedy p (pre ++ rest) K).
Proof.
  intros Hpre HK. induction Hpre as [|c pre Hc _ IH]; [by apply star_zero|].
  cbn [app star]. rewrite Hc. destruct greedy.
  - destruct (star true p (pre ++ rest) K); [done|]. by destruct IH.
  - by destruct (K (c :: pre ++ rest)).
Qed.

Lemma run_fence_here {A : Type} subject rest caps
    (k : jsstring → captures → option A) :
  run true subject (lit fence) (fence ++ rest) caps k = k rest caps.
Proof. done. Qed.

Lemma json_run_complete subject (b c : jsstring) :
  is_Some (run true subject json_re (fence ++ b ++ fence ++ c) ∅
             (λ rest caps,
                Some (MkMatch (consumed (fence ++ b ++ fence ++ c) rest)
                        caps))).
Proof.
  unfold json_re. cbn [run]. rewrite run_fence_here.
  destruct (run true subject (lit (js "json")) _ ∅ _); [done|].
  apply star_zero. apply star_complete; [by apply Forall_true|].
  apply star_zero. by rewrite run_fence_here.
Qed.

Lemma scan_complete ic subject r (pre inp : jsstring) :
  is_Some (run ic subject r inp ∅
             (λ rest caps, Some (MkMatch (consumed inp rest) caps))) →
  is_Some (scan ic subject r (pre ++ inp)).
Proof.
  intros Hrun. induction pre as [|c pre IH]; cbn [app scan].
  - destruct inp; cbn [scan]; by destruct Hrun as [m ->].
  - by destruct (run ic subject r (c :: pre ++ inp) ∅ _).
Qed.

(** The block pattern matches exactly the buffers with a fenced block. *)
Lemma json_match_iff_fenced (buffer : jsstring) :
  is_Some (str_match true json_re buffer) ↔ has_fenced_block buffer.
Proof.
  split.
  - intros [m Hm]. by eapply json_match_fenced.
  - intros (a & b & c & ->). apply scan_complete, json_run_complete.
Qed.

Lemma post_parse_throws (parsedData : value) (e : exn) :
  post_parse parsedData = Throw e → e = TypeError.
Proof.
  unfold post_parse, unwrap, repair.
  destruct parsedData as [| | | | |fields]; cbn.
  all: repeat (match goal with
               | |- context [if_truthy ?o] =>
                 let v := fresh "v" in
                 destruct (if_truthy o) as [v|]; [destruct v|]; cbn
               | |- context [truthy_opt ?o] => destruct (truthy_opt o); cbn
               end).
  all: congruence.
Qed.

(** Finalization throws the no-block error exactly on the buffers without
    a fenced block. *)
Lemma finalize_no_block_iff (buffer : jsstring) :
  finalize buffer = Throw no_json_block ↔ ¬ has_fenced_block buffer.
Proof.
  unfold finalize. rewrite <- json_match_iff_fenced.
  destruct (str_match true json_re buffer) as [m|].
  - split; [|intros H; destruct H; eauto].
    destruct (JSON.parse _) as [d|]; [|done].
    intros Hthrow%post_parse_throws. done.
  - split; [|done]. by intros _ [? ?].
Qed.

(** C2. A buffer without a fenced block (no two fences) makes finalization
    throw the no-block error: no strategy is returned. *)
Theorem no_fenced_block_fails (buffer : jsstring) :
  ¬ has_fenced_block buffer →
  finalize buffer = Throw no_json_block ∧
  ∀ strategy, finalize buffer ≠ Ok strategy.
Proof.
  intros Hno. assert (finalize buffer = Throw no_json_block) as ->; [|done].
  unfold finalize. destruct (str_match true json_re buffer) as [m|] eqn:Hm.
  - destruct Hno. by eapply json_match_fenced.
  - done.
Qed.

Lemma no_fenced_block_witness :
  finalize (js "<thinking>no report</thinking> {} ```json") =
    Throw no_json_block ∧
  ∀ strategy,
    finalize (js "<thinking>no report</thinking> {} ```json") ≠ Ok strategy.
Proof.
  apply no_fenced_block_fails.
  rewrite <- fence_pair_spec. vm_compute. discriminate.
Defined.

(** ** The video identifier *)

(** The identifier of a watch link and of a short link; a link with a
    shorter identifier and a text that is no link give [null]. *)
Example video_id_examples :
  getYoutubeVideoId (js "https://www.youtube.com/watch?v=dQw4w9WgXcQ") =
    Ok (Some (js "dQw4w9WgXcQ")) ∧
  getYoutubeVideoId (js "https://youtu.be/dQw4w9WgXcQ?t=42") =
    Ok (Some (js "dQw4w9WgXcQ")) ∧
  getYoutubeVideoId (js "https://www.youtube.com/watch?v=short") = Ok None ∧
  getYoutubeVideoId (js "not a link") = Ok None.
Proof. vm_compute. done. Qed.

(** C8. [getYoutubeVideoId] never throws and returns [null] or a string of
    exactly eleven code units. *)
Theorem video_id_eleven_or_null (url : jsstring) :
  getYoutubeVideoId url = Ok None ∨
  ∃ id, getYoutubeVideoId url = Ok (Some id) ∧ length id = 11.
Proof.
  unfold getYoutubeVideoId.
  destruct (str_match false youtube_re url) as [m|] eqn:Hm; [|by left].
  destruct (str_match_binds _ _ _ _ 2 Hm eq_refl) as [id ->].
  destruct (Nat.eqb (length id) 11) eqn:Hlen; [|by left].
  right. exists id. by apply Nat.eqb_eq in Hlen.
Qed.

(** ** The overlay *)

(** A text part and then an image part: the image is returned; an empty
    candidate list: the error. *)
Example overlay_examples :
  generateVisualOverlay
    (MkResponse (Some [ MkCandidate (Some (MkContent (Some
       [ MkPart None;
         MkPart (Some (Sdk.MkBlob (Some (js "image/png"))
                         (Some (js "iVBORw0KGgo=")))) ]))) ]))
    = Ok (js "data:image/png;base64,iVBORw0KGgo=") ∧
  generateVisualOverlay (MkResponse (Some [])) = Throw no_image ∧
  generateVisualOverlay (MkResponse None) = Throw no_image.
Proof. vm_compute. done. Qed.

(** The parts the code reads are those of the first candidate. *)
Lemma overlay_by_parts (response : GenerateContentResponse) :
  generateVisualOverlay response =
    match first_image (first_candidate_parts response) with
    | Ok (Some url) => Ok url
    | Ok None => Throw no_image
    | Throw e => Throw e
    end.
Proof.
  unfold generateVisualOverlay, response_parts, first_candidate_parts.
  by destruct response as [[[|[[[[ps|]]|]] cs]|]].
Qed.

Lemma image_url_data_url (subtype : jsstring) (bytes : option jsstring) :
  data_url (Sdk.MkBlob (Some (js "image/" ++ subtype)) bytes)
    = image_url subtype bytes.
Proof.
  unfold data_url, image_url, template. cbn [Sdk.mimeType Sdk.data default].
  change (js "data:image/") with (js "data:" ++ js "image/").
  rewrite <- !app_assoc. by destruct bytes.
Qed.

(** Every part is an image part, an untyped part or another part. *)
Lemma part_cases (part : Part) :
  image_part part ∨ untyped_part part ∨ other_part part.
Proof.
  destruct part as [[[[mime|] bytes]|]].
  - destruct (startsWith (js "image/") mime) eqn:Himg.
    + apply startsWith_prefix in Himg as [subtype ->]. left.
      by exists subtype, bytes.
    + right; right. split.
      * intros (subtype & b & Heq). cbn [inlineData] in Heq.
        assert (mime = js "image/" ++ subtype) as -> by congruence.
        assert (startsWith (js "image/") (js "image/" ++ subtype) = true)
          as Hyes by (apply startsWith_prefix; eauto).
        by rewrite Hyes in Himg.
      * by intros (b & [=]).
  - right; left. by exists bytes.
  - right; right. split; [by intros (? & ? & [=]) | by intros (? & [=])].
Qed.

Lemma first_image_other (l1 rest : list Part) :
  Forall other_part l1 → first_image (l1 ++ rest) = first_image rest.
Proof.
  induction 1 as [|part l1 [Hni Hnu] _ IH]; [done|].
  cbn [app first_image].
  destruct part as [[[[mime|] bytes]|]]; cbn [inlineData Sdk.mimeType].
  - destruct (startsWith (js "image/") mime) eqn:Himg; [|done].
    apply startsWith_prefix in Himg as [subtype ->].
    destruct Hni. by exists subtype, bytes.
  - destruct Hnu. by exists bytes.
  - done.
Qed.

Lemma first_image_found (l1 l2 : list Part) (subtype : jsstring)
    (bytes : option jsstring) :
  Forall other_part l1 →
  first_image
    (l1 ++ MkPart (Some (Sdk.MkBlob (Some (js "image/" ++ subtype)) bytes))
        :: l2)
    = Ok (Some (image_url subtype bytes)).
Proof.
  intros Hl1. rewrite first_image_other by done.
  cbn [first_image inlineData Sdk.mimeType].
  assert (startsWith (js "image/") (js "image/" ++ subtype) = true) as ->
    by (apply startsWith_prefix; eauto).
  by rewrite image_url_data_url.
Qed.

Lemma first_image_untyped (l1 l2 : list Part) (part : Part) :
  Forall other_part l1 → untyped_part part →
  first_image (l1 ++ part :: l2) = Throw TypeError.
Proof.
  intros Hl1 [bytes Hpart]. rewrite first_image_other by done.
  cbn [first_image]. by rewrite Hpart.
Qed.

Lemma first_image_none (ps : list Part) :
  Forall other_part ps → first_image ps = Ok None.
Proof.
  intros Hps. rewrite <- (app_nil_r ps). by rewrite first_image_other.
Qed.

(** The parts are all of the other kind, or the first that is not is an
    image part, or it is an untyped part. *)
Lemma parts_cases (ps : list Part) :
  Forall other_part ps ∨
  (∃ l1 subtype bytes l2,
     ps = l1 ++ MkPart (Some (Sdk.MkBlob (Some (js "image/" ++ subtype))
                                bytes)) :: l2 ∧
     Forall other_part l1) ∨
  (∃ l1 part l2,
     ps = l1 ++ part :: l2 ∧ Forall other_part l1 ∧ untyped_part part).
Proof.
  induction ps as [|part ps IH]; [by left|].
  destruct (part_cases part) as [(subtype & bytes & Himg)|[Hun|Hother]].
  - right; left. exists [], subtype, bytes, ps. split; [|done].
    destruct part as [blob]. cbn in Himg. by rewrite Himg.
  - right; right. by exists [], part, ps.
  - destruct IH as [Hall|[(l1 & subtype & bytes & l2 & -> & Hl1)
                         |(l1 & p & l2 & -> & Hl1 & Hp)]].
    + left. by constructor.
    + right; left. exists (part :: l1), subtype, bytes, l2.
      split; [done|]. by constructor.
    + right; right. exists (part :: l1), p, l2.
      split; [done|]. split; [by constructor|done].
Qed.

(** C7, as the code has it. The parts are those of the first candidate,
    read in order. As long as no inline data lacks its mime type, the
    function returns an image exactly when there is an image part, and
    throws [No image generated] when there is none. In general it returns
    the data URL of the first image part, made of its mime type and bytes,
    exactly when only parts of other kinds come before it; it throws
    [No image generated] exactly when every part is of another kind; and it
    throws a TypeError exactly when the first part that is not of another
    kind has inline data without a mime type. *)
Theorem overlay_iff_image_part (response : GenerateContentResponse) :
  (Forall (λ part, ¬ untyped_part part) (first_candidate_parts response) →
   ((∃ url, generateVisualOverlay response = Ok url) ↔
    Exists image_part (first_candidate_parts response)) ∧
   (¬ Exists image_part (first_candidate_parts response) →
    generateVisualOverlay response = Throw no_image)) ∧
  (∀ url, generateVisualOverlay response = Ok url ↔
     ∃ l1 subtype bytes l2,
       first_candidate_parts response =
         l1 ++ MkPart (Some (Sdk.MkBlob (Some (js "image/" ++ subtype))
                               bytes)) :: l2 ∧
       Forall other_part l1 ∧
       url = image_url subtype bytes) ∧
  (generateVisualOverlay response = Throw no_image ↔
   Forall other_part (first_candidate_parts response)) ∧
  (generateVisualOverlay response = Throw TypeError ↔
   ∃ l1 part l2,
     first_candidate_parts response = l1 ++ part :: l2 ∧
     Forall other_part l1 ∧ untyped_part part).
Proof.
  rewrite overlay_by_parts.
  assert (∀ subtype bytes,
            image_part (MkPart (Some (Sdk.MkBlob
              (Some (js "image/" ++ subtype)) bytes)))) as Himage
    by (intros subtype bytes; by exists subtype, bytes).
  destruct (parts_cases (first_candidate_parts response))
    as [Hall|[(l1 & subtype & bytes & l2 & Hps & Hl1)
             |(l1 & part & l2 & Hps & Hl1 & Hpart)]].
  - (* every part is of another kind *)
    rewrite first_image_none by done.
    assert (¬ Exists image_part (first_candidate_parts response)) as Hno.
    { rewrite Exists_exists. intros (p & Hin & Hp).
      rewrite Forall_forall in Hall. by destruct (Hall p Hin). }
    split; [|split; [|split]].
    + intros _. split; [|done]. split; [by intros [? ?]|done].
    + intros url. split; [done|].
      intros (l1 & subtype & bytes & l2 & Hps & _ & _).
      destruct Hno. rewrite Hps. apply Exists_app. right. by left.
    + done.
    + split; [done|]. intros (l1 & part & l2 & Hps & _ & Hpart).
      rewrite Hps in Hall. apply Forall_app in Hall as [_ Hall].
      apply Forall_cons in Hall as [[_ Hnot] _]. done.
  - (* the first part not of another kind is an image part *)
    rewrite Hps, first_image_found by done.
    split; [|split; [|split]].
    + intros _. split.
      * split; [|by eauto]. intros _. apply Exists_app. right. by left.
      * intros Hno. destruct Hno. apply Exists_app. right. by left.
    + intros url. split.
      * intros [= <-]. by exists l1, subtype, bytes, l2.
      * intros (l1' & subtype' & bytes' & l2' & Hps' & Hl1' & ->).
        pose proof (first_image_found l1' l2' subtype' bytes' Hl1')
          as Hfound.
        rewrite <- Hps', first_image_found in Hfound by done.
        congruence.
    + split; [done|]. intros Hall. apply Forall_app in Hall as [_ Hall].
      apply Forall_cons in Hall as [[Hnot _] _]. by destruct Hnot.
    + split; [done|]. intros (l1' & part' & l2' & Hps' & Hl1' & Hpart').
      pose proof (first_image_found l1 l2 subtype bytes Hl1) as Hfound.
      rewrite Hps', first_image_untyped in Hfound by done. done.
  - (* the first part not of another kind is untyped *)
    rewrite Hps, first_image_untyped by done.
    split; [|split; [|split]].
    + intros Hall. apply Forall_app in Hall as [_ Hall].
      apply Forall_cons in Hall as [Hnot _]. done.
    + intros url. split; [done|].
      intros (l1' & subtype' & bytes' & l2' & Hps' & Hl1' & _).
      pose proof (first_image_untyped l1 l2 part Hl1 Hpart) as Hthrow.
      rewrite Hps', first_image_found in Hthrow by done. done.
    + split; [done|]. intros Hall. apply Forall_app in Hall as [_ Hall].
      apply Forall_cons in Hall as [[_ Hnot] _]. done.
    + split; [|done]. intros _. by exists l1, part, l2.
Qed.

Lemma overlay_iff_image_part_witness :
  Forall (λ part, ¬ untyped_part part)
    (first_candidate_parts
       (MkResponse (Some [ MkCandidate (Some (MkContent (Some
          [ MkPart None;
            MkPart (Some (Sdk.MkBlob (Some (js "image/png"))
                            (Some (js "iVBORw0KGgo=")))) ]))) ]))) ∧
  ((∃ url,
      generateVisualOverlay
        (MkResponse (Some [ MkCandidate (Some (MkContent (Some
           [ MkPart None;
             MkPart (Some (Sdk.MkBlob (Some (js "image/png"))
                             (Some (js "iVBORw0KGgo=")))) ]))) ]))
        = Ok url) ↔
   Exists image_part
     (first_candidate_parts
        (MkResponse (Some [ MkCandidate (Some (MkContent (Some
           [ MkPart None;
             MkPart (Some (Sdk.MkBlob (Some (js "image/png"))
                             (Some (js "iVBORw0KGgo=")))) ]))) ])))).
Proof.
  assert (Forall (λ part, ¬ untyped_part part)
            (first_candidate_parts
               (MkResponse (Some [ MkCandidate (Some (MkContent (Some
                  [ MkPart None;
                    MkPart (Some (Sdk.MkBlob (Some (js "image/png"))
                                    (Some (js "iVBORw0KGgo=")))) ]))) ]))))
    as Htyped.
  { cbn [first_candidate_parts candidates].
    repeat constructor; by intros (bytes & [=]). }
  split; [exact Htyped|].
  exact (proj1 (proj1 (overlay_iff_image_part _) Htyped)).
Defined.

(** C7 as stated fails: inline data without a mime type throws a TypeError,
    whether an image part follows it or not, so that the function neither
    returns the image nor throws [No image generated]. *)
Lemma untyped_part_throws :
  (¬ Exists image_part
       (first_candidate_parts
          (MkResponse (Some [ MkCandidate (Some (MkContent (Some
             [ MkPart (Some (Sdk.MkBlob None
                               (Some (js "iVBORw0KGgo=")))) ]))) ]))) ∧
   generateVisualOverlay
     (MkResponse (Some [ MkCandidate (Some (MkContent (Some
        [ MkPart (Some (Sdk.MkBlob None
                          (Some (js "iVBORw0KGgo=")))) ]))) ]))
     = Throw TypeError) ∧
  (Exists image_part
     (first_candidate_parts
        (MkResponse (Some [ MkCandidate (Some (MkContent (Some
           [ MkPart (Some (Sdk.MkBlob None (Some (js "iVBORw0KGgo="))));
             MkPart (Some (Sdk.MkBlob (Some (js "image/png"))
                             (Some (js "iVBORw0KGgo=")))) ]))) ]))) ∧
   generateVisualOverlay
     (MkResponse (Some [ MkCandidate (Some (MkContent (Some
        [ MkPart (Some (Sdk.MkBlob None (Some (js "iVBORw0KGgo="))));
          MkPart (Some (Sdk.MkBlob (Some (js "image/png"))
                          (Some (js "iVBORw0KGgo=")))) ]))) ]))
     = Throw TypeError).
Proof.
  split; (split; [|vm_compute; reflexivity]); cbn [first_candidate_parts
    candidates].
  - rewrite Exists_cons, Exists_nil. by intros [(? & ? & [=])|[]].
  - right. left. by exists (js "png"), (Some (js "iVBORw0KGgo=")).
Qed.

(** ** Unwrapping and repair *)

Lemma only_keys_absent (ks : list string) (fields : gmap jsstring value)
    (k : jsstring) :
  only_keys ks fields = true → k ∉ js <$> ks → fields !! k = None.
Proof.
  unfold only_keys. intros Hsub%bool_decide_eq_true Hk.
  apply not_elem_of_dom. intros Hin. apply Hsub in Hin.
  by apply elem_of_list_to_set in Hin.
Qed.

(** A well-formed strategy is an object that has neither wrapper key. *)
Lemma well_formed_object (X : value) :
  is_RevivalStrategy X = true →
  ∃ fields, X = VObj fields ∧
    fields !! RevivalStrategy_key = None ∧
    fields !! revivalStrategy_key = None.
Proof.
  destruct X as [| | | | |fields]; try done. cbn [is_RevivalStrategy].
  rewrite !andb_true_iff. intros (_ & Hkeys). exists fields.
  split; [done|].
  split; (eapply only_keys_absent; [done|]); cbn [fmap list_fmap];
    rewrite !not_elem_of_cons; repeat split; try apply not_elem_of_nil;
    intros H; vm_compute in H; discriminate.
Qed.

Lemma unwrap_no_wrapper (fields : gmap jsstring value) :
  if_truthy (fields !! RevivalStrategy_key) = None →
  if_truthy (fields !! revivalStrategy_key) = None →
  unwrap (VObj fields) = Ok (VObj fields).
Proof. unfold unwrap. cbn. by intros -> ->. Qed.

Lemma unwrap_upper (fields : gmap jsstring value) (v : value) :
  fields !! RevivalStrategy_key = Some v → truthy v = true →
  unwrap (VObj fields) = Ok v.
Proof. unfold unwrap. cbn. intros -> Hv. cbn. by rewrite Hv. Qed.

Lemma unwrap_lower (fields : gmap jsstring value) (w : value) :
  if_truthy (fields !! RevivalStrategy_key) = None →
  fields !! revivalStrategy_key = Some w → truthy w = true →
  unwrap (VObj fields) = Ok w.
Proof. unfold unwrap. cbn. intros -> -> Hw. cbn. by rewrite Hw. Qed.

Lemma keys_differ : RevivalStrategy_key ≠ revivalStrategy_key.
Proof. done. Qed.

(** C3. For a well-formed strategy [X], the steps after the parse give the
    same strategy on [X], on [X] under the key [RevivalStrategy] and on [X]
    under the key [revivalStrategy]: [X] with its metadata repaired. *)
Theorem wrapper_unwrap_equivalent (X : value) :
  is_RevivalStrategy X = true →
  ∃ strategy,
    repair X = Ok strategy ∧
    post_parse X = Ok strategy ∧
    post_parse (VObj {[ RevivalStrategy_key := X ]}) = Ok strategy ∧
    post_parse (VObj {[ revivalStrategy_key := X ]}) = Ok strategy.
Proof.
  intros (fields & -> & Hupper & Hlower)%well_formed_object.
  assert (∃ strategy, repair (VObj fields) = Ok strategy) as [strategy Hrep].
  { unfold repair. cbn.
    destruct (truthy_opt (fields !! originalVideoMetadata_key)); eauto. }
  assert (unwrap (VObj fields) = Ok (VObj fields)) as Hplain.
  { apply unwrap_no_wrapper; by rewrite ?Hupper, ?Hlower. }
  assert (unwrap (VObj {[ RevivalStrategy_key := VObj fields ]}) =
          Ok (VObj fields)) as Hup.
  { apply unwrap_upper; [|done]. by rewrite lookup_singleton_eq. }
  assert (unwrap (VObj {[ revivalStrategy_key := VObj fields ]}) =
          Ok (VObj fields)) as Hlow.
  { apply unwrap_lower; [| |done].
    - rewrite lookup_singleton_ne; [done|]. intros H. by apply keys_differ.
    - by rewrite lookup_singleton_eq. }
  exists strategy. unfold post_parse. by rewrite Hplain, Hup, Hlow.
Qed.

Lemma wrapper_unwrap_witness :
  ∃ strategy,
    repair schema_example = Ok strategy ∧
    post_parse schema_example = Ok strategy ∧
    post_parse (VObj {[ RevivalStrategy_key := schema_example ]})
      = Ok strategy ∧
    post_parse (VObj {[ revivalStrategy_key := schema_example ]})
      = Ok strategy.
Proof. apply wrapper_unwrap_equivalent. vm_compute. reflexivity. Defined.

(** C4, as the code has it. When the strategy (the payload, or what a
    wrapper key holds) is an object without [originalVideoMetadata], the
    outcome is that object with the default metadata attached and every
    other field as it was. *)
Theorem metadata_repaired (parsedData : value)
    (fields : gmap jsstring value) :
  unwrap parsedData = Ok (VObj fields) →
  fields !! originalVideoMetadata_key = None →
  ∃ fields',
    post_parse parsedData = Ok (VObj fields') ∧
    fields' !! originalVideoMetadata_key = Some default_metadata ∧
    (∀ k, k ≠ originalVideoMetadata_key → fields' !! k = fields !! k) ∧
    default_metadata =
      VObj (list_to_map
        [ (js "title", VStr (js "Unknown Title"));
          (js "publishDate", VStr (js "Unknown Date"));
          (js "currentViews", VNum (num 0)) ]).
Proof.
  intros Hun Hnone.
  exists (<[originalVideoMetadata_key := default_metadata]> fields).
  split; [|split; [|split]].
  - unfold post_parse. rewrite Hun. cbn. unfold repair. cbn.
    by rewrite Hnone.
  - by rewrite lookup_insert_eq.
  - intros k Hk. by rewrite lookup_insert_ne.
  - vm_compute. reflexivity.
Qed.

Lemma metadata_repaired_witness :
  ∃ fields',
    post_parse (VObj {[ js "segments" := VArr [] ∅ ]}) = Ok (VObj fields') ∧
    fields' !! originalVideoMetadata_key = Some default_metadata ∧
    (∀ k, k ≠ originalVideoMetadata_key →
          fields' !! k =
            ({[ js "segments" := VArr [] ∅ ]} : gmap jsstring value) !! k) ∧
    default_metadata =
      VObj (list_to_map
        [ (js "title", VStr (js "Unknown Title"));
          (js "publishDate", VStr (js "Unknown Date"));
          (js "currentViews", VNum (num 0)) ]).
Proof.
  apply (metadata_repaired (VObj {[ js "segments" := VArr [] ∅ ]})
           {[ js "segments" := VArr [] ∅ ]}).
  - vm_compute. reflexivity.
  - vm_compute. reflexivity.
Defined.

(** C4 as stated fails: the payload [null] has no [originalVideoMetadata],
    and reading its wrapper key throws, from the parsed value as from the
    text of the model. *)
Lemma null_payload_throws :
  has_property VNull originalVideoMetadata_key = false ∧
  JSON.parse (js "null") = Some VNull ∧
  post_parse VNull = Throw TypeError ∧
  finalize (js "```json" ++ [10%N] ++ js "null" ++ [10%N] ++ js "```") =
    Throw TypeError.
Proof. vm_compute. done. Qed.

(** A primitive payload fails in the repair itself: no property can be
    created on it. *)
Lemma primitive_payload_throws :
  post_parse (VNum (num 5)) = Throw TypeError ∧
  post_parse (VStr (js "text")) = Throw TypeError ∧
  post_parse (VBool true) = Throw TypeError ∧
  post_parse (VObj {[ RevivalStrategy_key := VNum (num 5) ]}) =
    Throw TypeError.
Proof. vm_compute. done. Qed.

(** C9. The unwrap step: [RevivalStrategy] wins over [revivalStrategy] when
    both are truthy; a wrapper key is taken whatever other fields the
    payload has; a falsy wrapper value ([null], [0], the empty string,
    [false]) is never taken, and leaves the choice to the other key or to
    the payload itself. *)
Theorem unwrap_selection (fields : gmap jsstring value) :
  (∀ v w,
     fields !! RevivalStrategy_key = Some v → truthy v = true →
     fields !! revivalStrategy_key = Some w → truthy w = true →
     unwrap (VObj fields) = Ok v) ∧
  (∀ v, truthy v = true →
     unwrap (VObj (<[RevivalStrategy_key := v]> fields)) = Ok v) ∧
  (∀ w, truthy w = true →
     truthy_opt (fields !! RevivalStrategy_key) = false →
     unwrap (VObj (<[revivalStrategy_key := w]> fields)) = Ok w) ∧
  (truthy_opt (fields !! RevivalStrategy_key) = false →
   truthy_opt (fields !! revivalStrategy_key) = false →
   unwrap (VObj fields) = Ok (VObj fields)) ∧
  (truthy VNull = false ∧ truthy (VNum (num 0)) = false ∧
   truthy (VStr []) = false ∧ truthy (VBool false) = false).
Proof.
  assert (∀ o, truthy_opt o = false → if_truthy o = None) as Hfalsy.
  { intros [v|]; [|done]. cbn. by intros ->. }
  split; [|split; [|split; [|split]]].
  - intros v w Hv Htv _ _. by apply unwrap_upper.
  - intros v Htv. apply unwrap_upper; [|done]. by rewrite lookup_insert_eq.
  - intros w Htw Hup. apply unwrap_lower; [| |done].
    + rewrite lookup_insert_ne; [by apply Hfalsy|].
      intros H. by apply keys_differ.
    + by rewrite lookup_insert_eq.
  - intros Hup Hlow. apply unwrap_no_wrapper; by apply Hfalsy.
  - done.
Qed.

(** ** The dashboard *)

Lemma at_index_out_of_range (segs : list Segment) (segIdx : Z) :
  (segIdx < 0 ∨ Z.of_nat (length segs) ≤ segIdx)%Z →
  at_index segs segIdx = None.
Proof.
  intros Hout. unfold at_index.
  destruct (0 <=? segIdx)%Z eqn:Hpos; [|done].
  apply Z.leb_le in Hpos. apply lookup_ge_None. lia.
Qed.

(** C6. With two segments and an item that points at segments 0 and 5, the
    cell renders the link of segment 0 and [null] for index 5; in general
    an index off the array renders [null]. *)
Theorem out_of_range_index_skipped (getTimestampLink : jsstring → jsstring)
    (strategy : RevivalStrategy) (item : OutdatedItem) :
  length (segments strategy) = 2 →
  affectedSegmentIndices item = Some [0; 5]%Z →
  (∃ s0,
     segments strategy !! 0 = Some s0 ∧
     impacted_segment_links getTimestampLink strategy item =
       [ Some {| key := 0; href := getTimestampLink (startTime s0);
                 anchor_title := summary s0; label := startTime s0 |};
         None ]) ∧
  (∀ segs segIdx,
     (segIdx < 0 ∨ Z.of_nat (length segs) ≤ segIdx)%Z →
     segment_link getTimestampLink segs segIdx = None).
Proof.
  intros Hlen Hidx. split.
  - destruct (segments strategy) as [|s0 [|s1 [|]]] eqn:Hsegs; try done.
    exists s0. split; [done|].
    unfold impacted_segment_links, indices_of. by rewrite Hidx, Hsegs.
  - intros segs segIdx Hout. unfold segment_link.
    by rewrite at_index_out_of_range.
Qed.

Lemma out_of_range_index_witness :
  (∃ s0,
     segments two_segments !! 0 = Some s0 ∧
     impacted_segment_links (λ t, t) two_segments
       (MkOutdatedItem (js "State") (js "Redux") (js "Redux Toolkit")
          (js "less code") (num 8) (Some [0; 5]%Z)) =
       [ Some {| key := 0; href := startTime s0;
                 anchor_title := summary s0; label := startTime s0 |};
         None ]) ∧
  (∀ segs segIdx,
     (segIdx < 0 ∨ Z.of_nat (length segs) ≤ segIdx)%Z →
     segment_link (λ t, t) segs segIdx = None).
Proof.
  apply (out_of_range_index_skipped (λ t, t) two_segments); reflexivity.
Defined.

(** C10. The "Segments Impacted" count is the number of distinct indices
    that the items list, whatever the segments are: an index off the array
    counts like any other. *)
Theorem segments_impacted_counts_distinct (strategy : RevivalStrategy) :
  (∃ l : list Z,
     NoDup l ∧
     (∀ i, i ∈ l ↔
           ∃ item, item ∈ outdatedItems strategy ∧ i ∈ indices_of item) ∧
     segments_impacted strategy = length l) ∧
  (∀ segs,
     segments_impacted
       {| originalVideoMetadata := originalVideoMetadata strategy;
          segments := segs;
          outdatedItems := outdatedItems strategy;
          revivalPlan := revivalPlan strategy;
          revivalSummary := revivalSummary strategy;
          predictedViews := predictedViews strategy;
          predictedEngagement := predictedEngagement strategy |} =
     segments_impacted strategy) ∧
  segments_impacted two_segments = 2.
Proof.
  split; [|split; [done|]].
  - unfold segments_impacted.
    set (s := list_to_set (flat_map indices_of (outdatedItems strategy))
              : gset Z).
    exists (elements s). split; [apply NoDup_elements|]. split; [|done].
    intros i. rewrite elem_of_elements. unfold s.
    rewrite elem_of_list_to_set, list_elem_of_In, in_flat_map.
    split.
    + intros (item & Hitem & Hi). exists item.
      by rewrite !list_elem_of_In.
    + intros (item & Hitem & Hi). exists item.
      by rewrite <- !list_elem_of_In.
  - vm_compute. reflexivity.
Qed.

(** ** More on the stream loop *)

Lemma loop_step_fullText st text :
  fullText (loop_step st text) = fullText st ++ appended text.
Proof.
  rewrite loop_step_narrative. cbv zeta.
  by destruct (narrative (fullText st ++ appended text)).
Qed.

Lemma stream_loop_snoc st chunks text :
  stream_loop st (chunks ++ [text]) = loop_step (stream_loop st chunks) text.
Proof. unfold stream_loop. by rewrite fold_left_app. Qed.

Lemma stream_text_snoc chunks text :
  stream_text (chunks ++ [text]) = stream_text chunks ++ appended text.
Proof.
  unfold stream_text. rewrite fmap_app, concat_app. simpl.
  by rewrite app_nil_r.
Qed.

Lemma stream_loop_fullText chunks st :
  fullText (stream_loop st chunks) = fullText st ++ stream_text chunks.
Proof.
  induction chunks as [|text chunks IH] using rev_ind.
  - simpl. by rewrite app_nil_r.
  - by rewrite stream_loop_snoc, loop_step_fullText, IH, stream_text_snoc,
      app_assoc.
Qed.

Lemma narrative_none_iff (s : jsstring) :
  narrative s = None ↔ includes open_tag s = false.
Proof.
  unfold narrative. pose proof (includes_after open_tag s) as H.
  destruct (after open_tag s) as [a|]; simpl.
  - split; [done|]. intros Hf. rewrite Hf in H. destruct H as [_ H].
    by discriminate H.
  - split; [|done]. intros _. apply not_true_is_false.
    intros Ht%H. by destruct Ht.
Qed.

Lemma narrative_none_prefix (s e : jsstring) :
  narrative (s ++ e) = None → narrative s = None.
Proof.
  unfold narrative. destruct (after open_tag s) as [a|] eqn:Ha; [|done].
  by rewrite (after_app _ _ _ e Ha).
Qed.

(** While no opening tag is in the buffer the loop changes nothing but the
    buffer. *)
Lemma stream_loop_quiet chunks st :
  narrative (fullText st ++ stream_text chunks) = None →
  thinkingText (stream_loop st chunks) = thinkingText st ∧
  emitted (stream_loop st chunks) = emitted st.
Proof.
  induction chunks as [|text chunks IH] using rev_ind; [done|].
  rewrite stream_text_snoc, app_assoc. intros Hn.
  destruct IH as [IH1 IH2]; [by eapply narrative_none_prefix|].
  rewrite stream_loop_snoc, loop_step_narrative. cbv zeta.
  by rewrite stream_loop_fullText, Hn.
Qed.

(** With an opening tag in the buffer, the last turn leaves the narrative
    of the whole buffer and emits it. *)
Lemma stream_loop_last chunks text st t :
  narrative (fullText st ++ stream_text (chunks ++ [text])) = Some t →
  thinkingText (stream_loop st (chunks ++ [text])) = Some t ∧
  last (emitted (stream_loop st (chunks ++ [text]))) = Some (Some t).
Proof.
  rewrite stream_text_snoc, app_assoc. intros Hn.
  rewrite stream_loop_snoc, loop_step_narrative. cbv zeta.
  rewrite stream_loop_fullText, Hn. cbn [thinkingText emitted].
  by rewrite last_snoc.
Qed.

(** X1. The outcome of a stream depends on its text alone, not on how the
    text is cut into chunks: the buffer is the concatenation of the chunk
    texts, the result is the finalization of that text, the narrative left
    in [thinkingText] is the narrative of that text (the initial empty string
    without an opening tag), and it is what the last call of [onThinking]
    got. *)
Theorem stream_outcome_by_text (chunks : list (option jsstring)) :
  fullText (stream_loop loop_init chunks) = stream_text chunks ∧
  snd (analyzeVideoAndCreateRevivalPlan chunks) =
    finalize (stream_text chunks) ∧
  thinkingText (stream_loop loop_init chunks) =
    Some (default [] (narrative (stream_text chunks))) ∧
  (∀ t, narrative (stream_text chunks) = Some t →
        last (emitted (stream_loop loop_init chunks)) = Some (Some t)).
Proof.
  assert (fullText (stream_loop loop_init chunks) = stream_text chunks)
    as Hfull by (by rewrite stream_loop_fullText).
  split; [done|]. split.
  { unfold analyzeVideoAndCreateRevivalPlan. cbn [snd]. by rewrite Hfull. }
  destruct (narrative (stream_text chunks)) as [t|] eqn:Hn.
  - destruct chunks as [|text chunks _] using rev_ind; [done|].
    destruct (stream_loop_last chunks text loop_init t) as [H1 H2]; [done|].
    split; [done|]. by intros ? [= <-].
  - split; [|done]. by destruct (stream_loop_quiet chunks loop_init).
Qed.

(** X2. [onThinking] is never called exactly when the text of the stream
    holds no opening tag. *)
Theorem no_tag_no_emission (chunks : list (option jsstring)) :
  emitted (stream_loop loop_init chunks) = [] ↔
  includes open_tag (stream_text chunks) = false.
Proof.
  rewrite <- narrative_none_iff. split.
  - intros Hem. destruct (narrative (stream_text chunks)) as [t|] eqn:Hn;
      [|done].
    destruct chunks as [|text chunks _] using rev_ind; [done|].
    destruct (stream_loop_last chunks text loop_init t) as [_ H2]; [done|].
    by rewrite Hem in H2.
  - intros Hn. by destruct (stream_loop_quiet chunks loop_init).
Qed.

(** X3. The pattern of the loop matches exactly the buffers that include the
    opening tag, so the [includes]/[split] branch after a failed match is
    never taken. *)
Theorem thinking_match_iff_includes (full : jsstring) :
  is_Some (str_match false thinking_re full) ↔
  includes (js "<thinking>") full = true.
Proof.
  pose proof (thinking_match full) as H.
  pose proof (narrative_none_iff full) as Hn. fold open_tag.
  destruct (narrative full) as [t|].
  - destruct H as (m & -> & _). split; [|by eauto]. intros _.
    destruct (includes open_tag full); [done|]. by destruct Hn as [_ Hn];
      discriminate Hn.
  - rewrite H. split; [by intros [? ?]|]. intros Hi.
    destruct Hn as [Hn _]. rewrite Hn in Hi; done.
Qed.

Lemma before_rest (p s : jsstring) : ∃ z, s = before p s ++ z.
Proof.
  exists (drop (length (before p s)) s).
  transitivity (take (length (before p s)) s ++
                drop (length (before p s)) s);
    [by rewrite take_drop | by rewrite before_take].
Qed.

Lemma includes_before (p s : jsstring) :
  p ≠ [] → includes p (before p s) = false.
Proof.
  intros Hp. induction s as [|c s IH]; rewrite before_unfold.
  - destruct (startsWith p []); by destruct p.
  - destruct (startsWith p (c :: s)) eqn:Hs; [by destruct p|].
    cbn [includes]. rewrite IH, orb_false_r.
    apply not_true_is_false. intros Ht.
    destruct (before_rest p s) as [z Hz].
    apply (startsWith_app _ _ z) in Ht. simpl in Ht.
    rewrite <- Hz in Ht. congruence.
Qed.

Lemma before_all (p s : jsstring) :
  includes p s = false → before p s = s.
Proof.
  induction s as [|c s IH]; rewrite before_unfold; cbn [includes];
    intros [Hs Hi]%orb_false_iff; rewrite Hs; [done|].
  by rewrite IH.
Qed.

Lemma before_found (p s : jsstring) :
  includes p s = true → ∃ z, s = before p s ++ p ++ z.
Proof.
  intros [a Ha]%includes_after. apply after_split in Ha as [pre ->].
  destruct (before_split p pre a) as [z Hz]. by exists z.
Qed.

(** X4. With an opening tag in the buffer, what the pattern captures is the
    text after the first opening tag up to the first closing tag: all of it
    while no closing tag has come, never more than it, and never a text
    that holds a closing tag. *)
Theorem narrative_after_open (full a : jsstring) :
  after open_tag full = Some a →
  ∃ m t,
    str_match false thinking_re full = Some m ∧
    groups m !! 1 = Some t ∧
    t `prefix_of` a ∧
    includes close_tag t = false ∧
    (includes close_tag a = false → t = a) ∧
    (includes close_tag a = true → ∃ z, a = t ++ close_tag ++ z).
Proof.
  intros Ha. pose proof (thinking_match full) as H.
  unfold narrative in H. rewrite Ha in H. simpl in H.
  destruct H as (m & Hm & Hg). exists m, (before close_tag a).
  split; [done|]. split; [done|]. split; [apply before_rest|].
  split; [by apply includes_before|].
  split; [apply before_all | apply before_found].
Qed.

Lemma narrative_after_open_witness :
  ∃ m t,
    str_match false thinking_re (js "x<thinking>Step 1</thin") = Some m ∧
    groups m !! 1 = Some t ∧
    t `prefix_of` js "Step 1</thin" ∧
    includes close_tag t = false ∧
    (includes close_tag (js "Step 1</thin") = false → t = js "Step 1</thin") ∧
    (includes close_tag (js "Step 1</thin") = true →
       ∃ z, js "Step 1</thin" = t ++ close_tag ++ z).
Proof.
  apply (narrative_after_open (js "x<thinking>Step 1</thin")
           (js "Step 1</thin")).
  vm_compute. reflexivity.
Defined.

(** ** More on finalization *)

(** X5. A buffer with a fenced block never fails with the no-block error:
    finalization returns a strategy, or throws the parse error, or the
    [TypeError] of a payload that is no object. *)
Theorem fenced_block_is_found (buffer : jsstring) :
  has_fenced_block buffer →
  is_Some (str_match true json_re buffer) ∧
  ((∃ strategy, finalize buffer = Ok strategy) ∨
   finalize buffer = Throw bad_json ∨
   finalize buffer = Throw TypeError).
Proof.
  intros [m Hm]%json_match_iff_fenced. split; [by eauto|].
  unfold finalize. rewrite Hm.
  destruct (JSON.parse _) as [d|]; [|by right; left].
  destruct (post_parse d) as [s|e] eqn:Hpost; [by left; eauto|].
  right; right. by rewrite (post_parse_throws _ _ Hpost).
Qed.

Lemma fenced_block_is_found_witness :
  is_Some (str_match true json_re (js "```{ not json ```")) ∧
  ((∃ strategy, finalize (js "```{ not json ```") = Ok strategy) ∨
   finalize (js "```{ not json ```") = Throw bad_json ∨
   finalize (js "```{ not json ```") = Throw TypeError).
Proof.
  apply fenced_block_is_found. rewrite <- fence_pair_spec.
  vm_compute. reflexivity.
Defined.

Lemma repair_has_metadata (strategy s : value) :
  repair strategy = Ok s →
  ∃ meta, truthy meta = true ∧ get s originalVideoMetadata_key = Ok (Some meta).
Proof.
  unfold repair.
  destruct strategy as [| | | |elems props|fields]; cbn; try done.
  - destruct (props !! originalVideoMetadata_key) as [meta|] eqn:Hm; cbn.
    + destruct (truthy meta) eqn:Ht.
      * intros [= <-]. exists meta. by rewrite <- Hm.
      * intros [= <-]. exists default_metadata. cbn.
        by rewrite lookup_insert_eq.
    + intros [= <-]. exists default_metadata. cbn.
      by rewrite lookup_insert_eq.
  - destruct (fields !! originalVideoMetadata_key) as [meta|] eqn:Hm; cbn.
    + destruct (truthy meta) eqn:Ht.
      * intros [= <-]. exists meta. by rewrite <- Hm.
      * intros [= <-]. exists default_metadata. cbn.
        by rewrite lookup_insert_eq.
    + intros [= <-]. exists default_metadata. cbn.
      by rewrite lookup_insert_eq.
Qed.

(** X6. Whatever finalization returns is an object (or an array) that has a
    truthy [originalVideoMetadata]: never [null], never a primitive, never
    a strategy without metadata. *)
Theorem returned_strategy_has_metadata (buffer : jsstring) (s : value) :
  finalize buffer = Ok s →
  truthy s = true ∧
  ∃ meta, truthy meta = true ∧
          get s originalVideoMetadata_key = Ok (Some meta).
Proof.
  unfold finalize. destruct (str_match true json_re buffer); [|done].
  destruct (JSON.parse _) as [d|]; [|done].
  unfold post_parse. destruct (unwrap d) as [strategy|]; [|done]. cbn.
  intros Hrep. split; [|by eapply repair_has_metadata].
  destruct (repair_has_metadata _ _ Hrep) as (meta & _ & Hget).
  by destruct s.
Qed.

Lemma returned_strategy_witness :
  truthy (VObj {[ originalVideoMetadata_key := default_metadata ]}) = true ∧
  ∃ meta, truthy meta = true ∧
          get (VObj {[ originalVideoMetadata_key := default_metadata ]})
            originalVideoMetadata_key = Ok (Some meta).
Proof.
  apply (returned_strategy_has_metadata (js "```json {} ```")).
  vm_compute. reflexivity.
Defined.

(** X7. The repair step is idempotent, it leaves a truthy
    [originalVideoMetadata] alone, and it replaces one that is there but
    falsy ([null], [0], the empty string, [false]) by the default. *)
Theorem repair_idempotent (strategy : value) :
  (∀ s, repair strategy = Ok s → repair s = Ok s) ∧
  (∀ meta, get strategy originalVideoMetadata_key = Ok (Some meta) →
           truthy meta = true → repair strategy = Ok strategy) ∧
  (∀ fields meta,
     strategy = VObj fields →
     fields !! originalVideoMetadata_key = Some meta →
     truthy meta = false →
     repair strategy =
       Ok (VObj (<[originalVideoMetadata_key := default_metadata]> fields))).
Proof.
  split; [|split].
  - intros s Hrep.
    destruct (repair_has_metadata _ _ Hrep) as (meta & Ht & Hget).
    unfold repair. rewrite Hget. cbn. by rewrite Ht.
  - intros meta Hget Ht. unfold repair. rewrite Hget. cbn. by rewrite Ht.
  - intros fields meta -> Hm Ht. unfold repair. cbn. rewrite Hm. cbn.
    by rewrite Ht.
Qed.

(** ** More on the matcher: which alternative wins *)

Lemma forallb_Forall {A : Type} (p : A → bool) (l : list A) :
  forallb p l = true → Forall (λ c, p c = true) l.
Proof.
  induction l as [|c l IH]; [by constructor|]. cbn [forallb].
  intros [Hc Hl]%andb_true_iff. constructor; eauto.
Qed.

Lemma consumed_app (a b : jsstring) : consumed (a ++ b) b = a.
Proof.
  unfold consumed. rewrite length_app.
  replace (length a + length b - length b) with (length a) by lia.
  by rewrite take_app_length.
Qed.

(** What a run of a class consumed is made of the class. *)
Lemma star_inv {A : Type} greedy p inp (K : jsstring → option A) x :
  star greedy p inp K = Some x →
  ∃ w rest, inp = w ++ rest ∧ Forall (λ c, p c = true) w ∧ K rest = Some x.
Proof.
  induction inp as [|c inp IH]; cbn [star].
  - intros HK. by exists [], [].
  - destruct (p c) eqn:Hc; [|intros HK; by exists [], (c :: inp)].
    destruct greedy.
    + destruct (star true p inp K) eqn:Hs.
      * intros [= ->]. destruct (IH eq_refl) as (w & rest & -> & Hw & HK).
        exists (c :: w), rest. split; [done|]. split; [by constructor|done].
      * intros HK. by exists [], (c :: inp).
    + destruct (K (c :: inp)) eqn:HK.
      * intros [= ->]. by exists [], (c :: inp).
      * intros Hs. destruct (IH Hs) as (w & rest & -> & Hw & HK').
        exists (c :: w), rest. split; [done|]. split; [by constructor|done].
Qed.

(** A greedy run takes all of the class when the rest of the pattern
    matches after it. *)
Lemma star_greedy_run {A : Type} p a r (K : jsstring → option A) :
  Forall (λ c, p c = true) a → stops p r → is_Some (K r) →
  star true p (a ++ r) K = K r.
Proof.
  intros Ha Hr [x Hx]. induction Ha as [|c a Hc _ IH]; cbn [app star].
  - destruct r as [|c r]; [done|]. cbn [star]. simpl in Hr. by rewrite Hr.
  - by rewrite Hc, IH, Hx.
Qed.

(** A lazy run goes past every position where the rest of the pattern
    fails. *)
Lemma star_lazy_skip {A : Type} body T (K : jsstring → option A) :
  (∀ b1 c b2, body = b1 ++ c :: b2 → K (c :: b2 ++ T) = None) →
  is_Some (K T) →
  star false cls_any (body ++ T) K = K T.
Proof.
  intros Hskip [x Hx]. induction body as [|c b IH]; cbn [app star].
  - destruct T as [|c T]; [done|]. cbn [star cls_any]. by rewrite Hx.
  - cbn [cls_any]. rewrite (Hskip [] c b eq_refl). apply IH.
    intros b1 c' b2 ->. by apply (Hskip (c :: b1)).
Qed.

(** A match at the first position is the match. *)
Lemma scan_here ic subject r inp m :
  run ic subject r inp ∅
    (λ rest caps, Some (MkMatch (consumed inp rest) caps)) = Some m →
  scan ic subject r inp = Some m.
Proof. intros Hrun. destruct inp; cbn [scan]; by rewrite Hrun. Qed.

(** ** The block the pattern takes *)

Lemma run_fence_none {A : Type} subject inp caps
    (k : jsstring → captures → option A) :
  startsWith fence inp = false →
  run true subject (lit fence) inp caps k = None.
Proof.
  intros Hs. destruct (run true subject (lit fence) inp caps k) eqn:E; [|done].
  apply run_fence_ci in E as (rest & -> & _).
  assert (startsWith fence (fence ++ rest) = true)
    by (apply startsWith_prefix; eauto).
  congruence.
Qed.

Lemma run_json_label {A : Type} subject label rest caps
    (k : jsstring → captures → option A) :
  canonicalize <$> label = js "JSON" →
  run true subject (lit (js "json")) (label ++ rest) caps k = k rest caps.
Proof.
  change (js "JSON") with [74; 83; 79; 78]%N.
  change (js "json") with [106; 115; 111; 110]%N.
  destruct label as [|c1 [|c2 [|c3 [|c4 [|c5 label]]]]]; try done.
  intros [= H1 H2 H3 H4]. cbn [lit run app]. unfold chr_matches.
  change (canonicalize 106) with 74%N. change (canonicalize 115) with 83%N.
  change (canonicalize 111) with 79%N. change (canonicalize 110) with 78%N.
  by rewrite H1, H2, H3, H4.
Qed.

Lemma run_json_none {A : Type} subject inp caps
    (k : jsstring → captures → option A) :
  match inp with [] => True | c :: _ => canonicalize c ≠ 74%N end →
  run true subject (lit (js "json")) inp caps k = None.
Proof.
  change (js "json") with [106; 115; 111; 110]%N.
  destruct inp as [|c inp]; [done|]. intros Hc. cbn [lit run].
  unfold chr_matches. change (canonicalize 106) with 74%N.
  destruct (N.eqb 74 (canonicalize c)) eqn:E; [|done].
  apply N.eqb_eq in E. congruence.
Qed.

Lemma space_not_j (c : N) : cls_space c = true → canonicalize c ≠ 74%N.
Proof.
  unfold canonicalize.
  destruct (N.leb 97 c && N.leb c 122) eqn:Hr.
  - apply andb_true_iff in Hr as [H1%N.leb_le H2%N.leb_le].
    intros Hs H. assert (c = 106%N) as -> by lia. done.
  - intros Hs ->. done.
Qed.

Lemma first_alternative {A : Type} (o other : option A) (x : A) :
  o = Some x →
  match o with Some a => Some a | None => other end = Some x.
Proof. by intros ->. Qed.

(** The closing white space and fence. *)
Lemma run_closing {A : Type} subject sp2 post caps
    (k : jsstring → captures → option A) :
  Forall (λ c, cls_space c = true) sp2 →
  is_Some (k post caps) →
  star true cls_space (sp2 ++ fence ++ post)
    (λ rest, run true subject (lit fence) rest caps k) = k post caps.
Proof.
  intros Hsp Hk. rewrite star_greedy_run; [apply run_fence_here|done|done|].
  by rewrite run_fence_here.
Qed.

(** Inside a block without backticks that ends with no white space, the
    closing part of the pattern does not match. *)
Lemma no_closing_inside {A : Type} subject s T caps
    (k : jsstring → captures → option A) :
  s ≠ [] → no_space_at (last s) = true → no_backtick s = true →
  star true cls_space (s ++ T)
    (λ rest, run true subject (lit fence) rest caps k) = None.
Proof.
  intros Hne Hlast Hbt.
  destruct (star true cls_space (s ++ T) _) as [x|] eqn:E; [|done].
  exfalso. apply star_inv in E as (w & rest & Heq & Hw & Hrun).
  apply run_fence_ci in Hrun as (r' & -> & _).
  destruct (last s) as [l|] eqn:Hl; [|done].
  apply last_Some in Hl as [s' ->].
  simpl in Hlast. apply negb_true_iff in Hlast.
  unfold no_backtick in Hbt. apply forallb_Forall in Hbt.
  apply app_eq_inv in Heq as [(k' & Hs & Hk)|(k' & Hw' & _)].
  - destruct k' as [|y k'].
    + rewrite app_nil_r in Hs. subst w.
      apply Forall_app in Hw as [_ Hw]. apply Forall_inv in Hw. congruence.
    + injection Hk as <- _.
      rewrite Forall_forall in Hbt.
      assert (96%N ∈ s' ++ [l]) as Hin by (rewrite Hs; set_solver).
      apply Hbt in Hin. done.
  - subst w. apply Forall_app in Hw as [Hw _].
    apply Forall_app in Hw as [_ Hw]. apply Forall_inv in Hw. congruence.
Qed.

(** The pattern at the opening fence of a plain block. *)
Lemma json_run_block subject label sp1 body sp2 post :
  json_label label = true →
  no_label_clash label sp1 body = true →
  forallb cls_space sp1 = true → forallb cls_space sp2 = true →
  no_space_at (head body) = true → no_space_at (last body) = true →
  no_backtick body = true →
  let R := fence ++ label ++ sp1 ++ body ++ sp2 ++ fence ++ post in
  run true subject json_re R ∅
    (λ rest caps, Some (MkMatch (consumed R rest) caps)) =
  Some (MkMatch (consumed R post) {[ 1 := body ]}).
Proof.
  intros Hlabel Hclash Hsp1%forallb_Forall Hsp2%forallb_Forall
    Hhead Hlast Hbt R.
  set (T := sp2 ++ fence ++ post).
  set (final := λ (rest : jsstring) (caps : captures),
                  Some (MkMatch (consumed R rest) caps)).
  (* the part of the pattern after the optional label *)
  assert (star true cls_space (sp1 ++ body ++ T)
            (λ rest, star false cls_any rest
               (λ rest0, star true cls_space rest0
                  (λ rest1, run true subject (lit (js "```")) rest1
                     (<[1 := consumed rest rest0]> ∅) final))) =
          Some (MkMatch (consumed R post) {[ 1 := body ]})) as Hrest.
  { assert (star false cls_any (body ++ T)
              (λ rest0, star true cls_space rest0
                 (λ rest1, run true subject (lit (js "```")) rest1
                    (<[1 := consumed (body ++ T) rest0]> ∅) final)) =
            Some (MkMatch (consumed R post) {[ 1 := body ]})) as Hgroup.
    { rewrite star_lazy_skip.
      - unfold T at 1. rewrite (run_closing subject sp2 post); [|done|done].
        unfold final. by rewrite consumed_app.
      - intros b1 c b2 Hb. rewrite app_comm_cons.
        apply no_closing_inside; [done| |].
        + by rewrite Hb, last_app_cons in Hlast.
        + unfold no_backtick in *. rewrite Hb, forallb_app in Hbt.
          by apply andb_true_iff in Hbt as [_ ?].
      - unfold T at 1. by rewrite (run_closing subject sp2 post). }
    rewrite star_greedy_run; [done|done| |by rewrite Hgroup].
    destruct body as [|c body]; [done|]. simpl in Hhead. simpl.
    by apply negb_true_iff. }
  unfold json_re. cbn [run]. unfold R at 1. rewrite run_fence_here.
  destruct label as [|l0 label].
  - rewrite run_json_none; [exact Hrest|]. simpl.
    destruct sp1 as [|s0 sp1]; simpl.
    + destruct body as [|c body]; [done|]. simpl in Hclash. simpl.
      apply negb_true_iff, N.eqb_neq in Hclash. done.
    + apply Forall_inv in Hsp1. by apply space_not_j.
  - simpl in Hlabel. apply bool_decide_eq_true in Hlabel.
    rewrite run_json_label by done. apply first_alternative. exact Hrest.
Qed.

(** No match starts before the first fence. *)
Lemma scan_before_fence subject pre R :
  includes fence (pre ++ js "``") = false →
  scan true subject json_re (pre ++ fence ++ R) =
  scan true subject json_re (fence ++ R).
Proof.
  induction pre as [|c pre IH]; [done|]. intros Hinc.
  cbn [includes app] in Hinc. apply orb_false_iff in Hinc as [Hs Hinc].
  cbn [app scan].
  assert (run true subject json_re (c :: pre ++ fence ++ R) ∅
            (λ rest caps,
               Some (MkMatch (consumed (c :: pre ++ fence ++ R) rest) caps))
          = None) as ->; [|by apply IH].
  unfold json_re. cbn [run]. apply run_fence_none.
  change (fence ++ R) with ((js "``" ++ [96%N]) ++ R).
  rewrite <- app_assoc, app_comm_cons, app_assoc.
  rewrite startsWith_app_long; [done|].
  rewrite length_app. simpl. lia.
Qed.

(** The match of the block pattern on a buffer that holds a plain block. *)
Lemma block_match (pre label sp1 body sp2 post : jsstring) :
  includes fence (pre ++ js "``") = false →
  json_label label = true →
  no_label_clash label sp1 body = true →
  forallb cls_space sp1 = true → forallb cls_space sp2 = true →
  no_space_at (head body) = true → no_space_at (last body) = true →
  no_backtick body = true →
  str_match true json_re
    (pre ++ fence ++ label ++ sp1 ++ body ++ sp2 ++ fence ++ post) =
  Some (MkMatch
          (consumed (fence ++ label ++ sp1 ++ body ++ sp2 ++ fence ++ post)
             post)
          {[ 1 := body ]}).
Proof.
  intros Hpre Hlabel Hclash Hsp1 Hsp2 Hhead Hlast Hbt.
  unfold str_match. rewrite scan_before_fence by done.
  apply scan_here. by apply json_run_block.
Qed.

(** X8. The block that is parsed. When no fence starts before it, the first
    fenced block is taken whatever follows its closing fence; its label may
    be absent or [json] in any case; the white space around its content is
    dropped; and the content itself goes to [JSON.parse] unchanged. The
    content has no backtick and neither starts nor ends with white space;
    without label and white space it does not start with [j] or [J]. *)
Theorem fenced_block_extracted (pre label sp1 body sp2 post : jsstring) :
  includes fence (pre ++ js "``") = false →
  json_label label = true →
  no_label_clash label sp1 body = true →
  forallb cls_space sp1 = true → forallb cls_space sp2 = true →
  no_space_at (head body) = true → no_space_at (last body) = true →
  no_backtick body = true →
  let buffer :=
    pre ++ fence ++ label ++ sp1 ++ body ++ sp2 ++ fence ++ post in
  (∃ m, str_match true json_re buffer = Some m ∧ groups m !! 1 = Some body) ∧
  finalize buffer =
    match JSON.parse body with
    | Some parsedData => post_parse parsedData
    | None => Throw bad_json
    end.
Proof.
  intros Hpre Hlabel Hclash Hsp1 Hsp2 Hhead Hlast Hbt buffer.
  pose proof (block_match pre label sp1 body sp2 post
                Hpre Hlabel Hclash Hsp1 Hsp2 Hhead Hlast Hbt) as Hm.
  fold buffer in Hm. split.
  - eexists. split; [exact Hm|]. cbn [groups]. by rewrite lookup_singleton_eq.
  - unfold finalize. rewrite Hm. cbn [groups].
    by rewrite lookup_singleton_eq.
Qed.

Lemma fenced_block_extracted_witness :
  let buffer :=
    js "notes " ++ fence ++ js "JSON" ++ [10%N] ++
    jsq "{'predictedViews':7}" ++ [10%N; 32%N] ++ fence ++
    js " and ```more```" in
  (∃ m, str_match true json_re buffer = Some m ∧
        groups m !! 1 = Some (jsq "{'predictedViews':7}")) ∧
  finalize buffer =
    match JSON.parse (jsq "{'predictedViews':7}") with
    | Some parsedData => post_parse parsedData
    | None => Throw bad_json
    end.
Proof.
  apply (fenced_block_extracted (js "notes ") (js "JSON") [10%N]
           (jsq "{'predictedViews':7}") [10%N; 32%N] (js " and ```more```"));
    vm_compute; reflexivity.
Defined.

(** ** The matcher and the language of a pattern *)

(** Whatever a successful run consumed is a word of the pattern. *)
Lemma run_lang {A : Type} ic subject r :
  ∀ inp caps (k : jsstring → captures → option A) x,
    run ic subject r inp caps k = Some x →
    ∃ w rest caps',
      inp = w ++ rest ∧ lang ic r w ∧ k rest caps' = Some x.
Proof.
  induction r as [|pc|p|r1 IH1 r2 IH2|r1 IH1 r2 IH2|r1 IH1|g p|m r1 IH1| |];
    intros inp caps k x; cbn [run lang].
  - intros Hk. by exists [], inp, caps.
  - destruct inp as [|c inp]; [done|].
    destruct (chr_matches ic pc c) eqn:Hc; [|done]. intros Hk.
    exists [c], inp, caps. eauto.
  - destruct inp as [|c inp]; [done|].
    destruct (p c) eqn:Hc; [|done]. intros Hk.
    exists [c], inp, caps. eauto.
  - intros (w1 & rest1 & caps1 & -> & Hw1 & Hk1)%IH1.
    apply IH2 in Hk1 as (w2 & rest2 & caps2 & -> & Hw2 & Hk2).
    exists (w1 ++ w2), rest2, caps2. rewrite <- app_assoc. eauto 10.
  - destruct (run ic subject r1 inp caps k) eqn:H1.
    + intros [= ->]. apply IH1 in H1 as (w & rest & caps' & -> & Hw & Hk).
      exists w, rest, caps'. eauto.
    + intros (w & rest & caps' & -> & Hw & Hk)%IH2.
      exists w, rest, caps'. eauto.
  - destruct (run ic subject r1 inp caps k) eqn:H1.
    + intros [= ->]. apply IH1 in H1 as (w & rest & caps' & -> & Hw & Hk).
      exists w, rest, caps'. eauto.
    + intros Hk. exists [], inp, caps. eauto.
  - intros (w & rest & -> & Hw & Hk)%star_inv. by exists w, rest, caps.
  - intros (w & rest & caps' & -> & Hw & Hk)%IH1.
    exists w, rest, (<[m := consumed (w ++ rest) rest]> caps'). eauto.
  - destruct (Nat.eqb _ _); [|done]. intros Hk. by exists [], inp, caps.
  - destruct inp; [|done]. intros Hk. by exists [], [], caps.
Qed.

Lemma lang_lit (s w : jsstring) : lang false (lit s) w → w = s.
Proof.
  revert w. induction s as [|c s IH]; intros w; cbn [lit lang]; [done|].
  intros (w1 & w2 & -> & (c' & -> & Hc) & Hw2%IH). subst.
  unfold chr_matches in Hc. apply N.eqb_eq in Hc. by subst.
Qed.

Lemma lang_marker (mk : jsstring) : lang false marker_re mk → is_marker mk.
Proof.
  unfold marker_re, is_marker. cbn [lang].
  intros [H|[H|[H|[H|[H|H]]]]].
  - destruct H as (w1 & w2 & -> & ->%lang_lit &
                   w3 & w4 & -> & (x & -> & Hx) & ->%lang_lit).
    left. by exists x.
  - apply lang_lit in H. tauto.
  - destruct H as (w1 & w2 & -> & ->%lang_lit &
                   w3 & w4 & -> & (x & -> & Hx) & ->%lang_lit).
    right; right; left. by exists x.
  - apply lang_lit in H. tauto.
  - apply lang_lit in H. tauto.
  - apply lang_lit in H. tauto.
Qed.

Lemma youtube_re_marker :
  youtube_re =
    Seq Bol
      (Seq (Star true cls_dot)
         (Seq marker_re
            (Seq (Grp 2 (Star true cls_id)) (Star true cls_dot)))).
Proof. reflexivity. Qed.

(** A greedy run before a part of the pattern that always matches takes all
    of the class. *)
Lemma star_greedy_total {A : Type} p inp (K : jsstring → option A) x :
  (∀ r, is_Some (K r)) →
  star true p inp K = Some x →
  ∃ w rest,
    inp = w ++ rest ∧ Forall (λ c, p c = true) w ∧ stops p rest ∧
    K rest = Some x.
Proof.
  intros HK. induction inp as [|c inp IH]; cbn [star].
  - intros Hx. by exists [], [].
  - destruct (p c) eqn:Hc; [|intros Hx; by exists [], (c :: inp)].
    destruct (star true p inp K) as [y|] eqn:Hs.
    + intros [= ->]. destruct (IH eq_refl) as (w & rest & -> & Hw & Hr & Hx).
      exists (c :: w), rest. split; [done|]. split; [by constructor|done].
    + destruct (star_zero true p inp K (HK inp)) as [? ?]. congruence.
Qed.

Lemma suffix_same_length (s t : jsstring) :
  s `suffix_of` t → length s = length t → s = t.
Proof.
  intros [k ->]. rewrite length_app. intros Hl.
  destruct k; [done|]. simpl in Hl. lia.
Qed.

(** What the pattern of [getYoutubeVideoId] captures in group 2. *)
Lemma youtube_match_shape (url : jsstring) (m : match_result) :
  str_match false youtube_re url = Some m →
  ∃ pre mk id post,
    url = pre ++ mk ++ id ++ post ∧
    Forall (λ c, cls_dot c = true) pre ∧ is_marker mk ∧
    Forall (λ c, cls_id c = true) id ∧ stops cls_id post ∧
    groups m !! 2 = Some id.
Proof.
  intros (start & Hsuf & Hrun)%scan_start.
  rewrite youtube_re_marker in Hrun. cbn [run] in Hrun.
  destruct (Nat.eqb (length start) (length url)) eqn:Hlen; [|done].
  apply Nat.eqb_eq in Hlen.
  apply (suffix_same_length _ _ Hsuf) in Hlen as ->.
  apply star_inv in Hrun as (pre & r1 & -> & Hpre & Hrun).
  apply run_lang in Hrun as (mk & r2 & caps & -> & Hmk & Hrun).
  apply lang_marker in Hmk.
  apply star_greedy_total in Hrun as (id & post & -> & Hid & Hpost & Hrun).
  - apply star_inv in Hrun as (w & rest & _ & _ & [= <-]).
    exists pre, mk, id, post. split; [done|]. split; [done|].
    split; [done|]. split; [done|]. split; [done|].
    cbn [groups]. by rewrite lookup_insert_eq, consumed_app.
  - intros r. by apply star_zero.
Qed.

(** X9. The identifier [getYoutubeVideoId] returns stands in the link right
    after a marker ([youtu.be/] with any code unit for the dot, [v/],
    [u/] a word character [/], [embed/], [watch?v=], [&v=]); it has eleven
    code units, none of them [#], [&] or [?]; it runs to the end of the
    link or to the next [#], [&] or [?]; and no line terminator comes
    before it. *)
Theorem video_id_follows_marker (url id : jsstring) :
  getYoutubeVideoId url = Ok (Some id) →
  ∃ pre mk post,
    url = pre ++ mk ++ id ++ post ∧
    is_marker mk ∧
    Forall (λ c, cls_dot c = true) (pre ++ mk) ∧
    length id = 11 ∧
    Forall (λ c, cls_id c = true) id ∧
    stops cls_id post.
Proof.
  unfold getYoutubeVideoId.
  destruct (str_match false youtube_re url) as [m|] eqn:Hm; [|done].
  destruct (youtube_match_shape _ _ Hm)
    as (pre & mk & id' & post & -> & Hpre & Hmk & Hid & Hpost & ->).
  destruct (Nat.eqb (length id') 11) eqn:Hlen; [|done].
  intros [= <-]. apply Nat.eqb_eq in Hlen.
  exists pre, mk, post. split; [done|]. split; [done|].
  split; [|done]. apply Forall_app. split; [done|].
  destruct Hmk
    as [(x & Hx & ->) | [ -> | [(w & Hw & ->) | [ -> | [ -> | -> ]]]]];
    repeat constructor; try done.
  revert Hw. unfold cls_word, cls_dot.
  destruct (N.eqb w 10) eqn:E1; [apply N.eqb_eq in E1 as ->; done|].
  destruct (N.eqb w 13) eqn:E2; [apply N.eqb_eq in E2 as ->; done|].
  destruct (N.eqb w 8232) eqn:E3; [apply N.eqb_eq in E3 as ->; done|].
  destruct (N.eqb w 8233) eqn:E4; [apply N.eqb_eq in E4 as ->; done|].
  done.
Qed.

Lemma video_id_follows_marker_witness :
  ∃ pre mk post,
    js "https://youtu.be/dQw4w9WgXcQ?t=42" =
      pre ++ mk ++ js "dQw4w9WgXcQ" ++ post ∧
    is_marker mk ∧
    Forall (λ c, cls_dot c = true) (pre ++ mk) ∧
    length (js "dQw4w9WgXcQ") = 11 ∧
    Forall (λ c, cls_id c = true) (js "dQw4w9WgXcQ") ∧
    stops cls_id post.
Proof.
  apply (video_id_follows_marker (js "https://youtu.be/dQw4w9WgXcQ?t=42")
           (js "dQw4w9WgXcQ")).
  vm_compute. reflexivity.
Defined.

(** ** Links that resolve *)

Lemma star_none {A : Type} greedy p inp (K : jsstring → option A) :
  (∀ r, r `suffix_of` inp → K r = None) → star greedy p inp K = None.
Proof.
  induction inp as [|c inp IH]; intros HK; cbn [star]; [by apply HK|].
  assert (star greedy p inp K = None) as Hs.
  { apply IH. intros r Hr. apply HK. by apply suffix_cons_r. }
  rewrite Hs, (HK (c :: inp)) by done. by destruct (p c), greedy.
Qed.

Lemma star_greedy_app {A : Type} p pre R (K : jsstring → option A) :
  Forall (λ c, p c = true) pre → is_Some (star true p R K) →
  star true p (pre ++ R) K = star true p R K.
Proof.
  intros Hpre [x Hx]. induction Hpre as [|c pre Hc _ IH]; [done|].
  cbn [app star]. by rewrite Hc, IH, Hx.
Qed.

Lemma star_greedy_head {A : Type} p c R (K : jsstring → option A) :
  star true p R K = None → star true p (c :: R) K = K (c :: R).
Proof. intros Hs. cbn [star]. rewrite Hs. by destruct (p c). Qed.

Lemma suffix_cons_cases (r l : jsstring) (y : N) :
  r `suffix_of` y :: l → r = y :: l ∨ r `suffix_of` l.
Proof.
  intros [[|z k] Hk]; [by left|]. right. injection Hk as _ ->. by exists k.
Qed.

Lemma includes_startsWith (p s : jsstring) :
  startsWith p s = true → includes p s = true.
Proof. intros H. destruct s; cbn [includes]; by rewrite H. Qed.

Lemma includes_app_r (p a b : jsstring) :
  includes p b = true → includes p (a ++ b) = true.
Proof.
  intros Hb. induction a as [|c a IH]; [done|]. cbn [app includes].
  rewrite IH. apply orb_true_r.
Qed.

Lemma includes_suffix (p r s : jsstring) :
  r `suffix_of` s → includes p s = false → includes p r = false.
Proof.
  intros [k ->] Hs. apply not_true_is_false. intros Hr.
  by rewrite (includes_app_r p k r Hr) in Hs.
Qed.

(** Every marker ends with a slash or with [v=]. *)
Lemma marker_needs {A : Type} subject inp caps
    (k : jsstring → captures → option A) x :
  run false subject marker_re inp caps k = Some x →
  includes (js "/") inp = true ∨ includes (js "v=") inp = true.
Proof.
  intros (mk & rest & caps' & -> & Hmk & _)%run_lang.
  apply lang_marker in Hmk.
  destruct Hmk
    as [(y & Hy & ->) | [ -> | [(w & Hw & ->) | [ -> | [ -> | -> ]]]]].
  - left. change (js "youtu" ++ y :: js "be/")
      with ((js "youtu" ++ y :: js "be") ++ js "/").
    rewrite <- app_assoc. by apply includes_app_r, includes_startsWith.
  - left. change (js "v/") with (js "v" ++ js "/").
    rewrite <- app_assoc. by apply includes_app_r, includes_startsWith.
  - left. change (js "u/" ++ w :: js "/")
      with ((js "u/" ++ [w]) ++ js "/").
    rewrite <- app_assoc. by apply includes_app_r, includes_startsWith.
  - left. change (js "embed/") with (js "embed" ++ js "/").
    rewrite <- app_assoc. by apply includes_app_r, includes_startsWith.
  - right. change (js "watch?v=") with (js "watch?" ++ js "v=").
    rewrite <- app_assoc. by apply includes_app_r, includes_startsWith.
  - right. change (js "&v=") with (js "&" ++ js "v=").
    rewrite <- app_assoc. by apply includes_app_r, includes_startsWith.
Qed.

Lemma id_char_facts (c : N) :
  id_char c = true → cls_id c = true ∧ c ≠ 47%N ∧ c ≠ 61%N.
Proof.
  unfold id_char, cls_word, cls_id. intros H.
  repeat split; [|by intros ->..].
  destruct (N.eqb_spec c 35) as [->|]; [done|].
  destruct (N.eqb_spec c 38) as [->|]; [done|].
  destruct (N.eqb_spec c 63) as [->|]; done.
Qed.

Lemma tail_head_facts (c : N) : cls_id c = false → c ≠ 61%N.
Proof. by intros H ->. Qed.

(** Neither the identifier nor what follows it holds the end of a marker. *)
Lemma no_marker_end (id rest : jsstring) :
  forallb id_char id = true → link_tail rest = true →
  includes (js "/") (id ++ rest) = false ∧
  includes (js "v=") (id ++ rest) = false.
Proof.
  intros Hid Htail.
  assert (includes (js "/") rest = false ∧ includes (js "v=") rest = false ∧
          match rest with [] => True | d :: _ => d ≠ 61%N end)
    as (Hs & Hv & Hd).
  { destruct rest as [|d rest]; [done|]. unfold link_tail in Htail.
    apply andb_true_iff in Htail as [[Hc Hs]%andb_true_iff Hv].
    apply negb_true_iff in Hc, Hs, Hv. by apply tail_head_facts in Hc. }
  clear Htail. induction id as [|c id IH]; [done|].
  cbn [forallb] in Hid. apply andb_true_iff in Hid as [Hc Hid].
  destruct (IH Hid) as [IH1 IH2].
  destruct (id_char_facts c Hc) as (_ & Hc1 & Hc2).
  change (js "/") with [47%N] in *. change (js "v=") with [118%N; 61%N] in *.
  cbn [app includes startsWith]. rewrite IH1, IH2, !orb_false_r.
  split.
  - apply andb_false_iff. left. by apply N.eqb_neq.
  - destruct (id ++ rest) as [|d tl] eqn:Htl; [by rewrite andb_false_r|].
    assert (d ≠ 61%N) as Hd'.
    { destruct id as [|d' id]; simpl in Htl.
      - subst rest. done.
      - injection Htl as -> _. cbn [forallb] in Hid.
        apply andb_true_iff in Hid as [Hd' _].
        by destruct (id_char_facts _ Hd') as (_ & _ & ?). }
    apply andb_false_iff. right. apply andb_false_iff. left.
    by apply N.eqb_neq.
Qed.

(** At a marker written as in a link, group 1 takes it. *)
Lemma marker_here {A : Type} subject M T
    (k : jsstring → captures → option A) (m : A) :
  M ∈ link_markers →
  k T (<[1 := consumed (M ++ T) T]> ∅) = Some m →
  run false subject marker_re (M ++ T) ∅ k = Some m.
Proof.
  unfold link_markers. rewrite !elem_of_cons, elem_of_nil.
  intros [-> | [ -> | [ -> | [ -> | [ -> | [] ]]]]] Hk;
    vm_compute in Hk |- *; by rewrite Hk.
Qed.

(** No marker starts inside a marker written as in a link, nor after it. *)
Lemma marker_not_after {A : Type} subject M id rest
    (k : jsstring → captures → option A) r :
  M ∈ link_markers →
  forallb id_char id = true → link_tail rest = true →
  r `suffix_of` tail M ++ id ++ rest →
  run false subject marker_re r ∅ k = None.
Proof.
  intros HM Hid Htail Hr.
  assert (r `suffix_of` id ++ rest →
          run false subject marker_re r ∅ k = None) as Hin.
  { intros Hsuf. destruct (no_marker_end id rest Hid Htail) as [H1 H2].
    destruct (run false subject marker_re r ∅ k) eqn:E; [|done].
    apply marker_needs in E as [E|E].
    - by rewrite (includes_suffix _ _ _ Hsuf H1) in E.
    - by rewrite (includes_suffix _ _ _ Hsuf H2) in E. }
  revert Hr. unfold link_markers in HM.
  rewrite !elem_of_cons, elem_of_nil in HM.
  destruct HM as [-> | [ -> | [ -> | [ -> | [ -> | [] ]]]]];
    match goal with
    | |- context [js ?s] =>
      let v := eval vm_compute in (js s) in change (js s) with v
    end;
    cbn [tail app]; intros Hr;
    repeat (apply suffix_cons_cases in Hr as [-> | Hr]; [reflexivity|]);
    by apply Hin.
Qed.

Lemma link_marker_cons (M : jsstring) :
  M ∈ link_markers → ∃ c M', M = c :: M'.
Proof.
  unfold link_markers. rewrite !elem_of_cons, elem_of_nil.
  intros [-> | [ -> | [ -> | [ -> | [ -> | [] ]]]]]; by eexists _, _.
Qed.

(** The pattern on a link of the usual form, whatever follows the
    pattern. *)
Lemma youtube_run_link {A : Type} subject before M id rest
    (k : jsstring → captures → option A) :
  M ∈ link_markers →
  Forall (λ c, cls_dot c = true) before →
  forallb id_char id = true → link_tail rest = true →
  let tail_run :=
    star true cls_dot rest
      (λ r, k r (<[2 := id]>
                 (<[1 := consumed (M ++ id ++ rest) (id ++ rest)]> ∅))) in
  is_Some tail_run →
  run false subject
    (Seq (Star true cls_dot)
       (Seq marker_re (Seq (Grp 2 (Star true cls_id)) (Star true cls_dot))))
    (before ++ M ++ id ++ rest) ∅ k = tail_run.
Proof.
  intros HM Hbefore Hid Htail tail_run [x Hx]. cbn [run].
  set (K2 := λ (inp' : jsstring) (caps' : captures),
               star true cls_id inp'
                 (λ rest1, star true cls_dot rest1
                    (λ rest2, k rest2 (<[2 := consumed inp' rest1]> caps')))).
  set (K1 := λ rest0 : jsstring, run false subject marker_re rest0 ∅ K2).
  change (star true cls_dot (before ++ M ++ id ++ rest) K1 = tail_run).
  (* the identifier and what follows *)
  assert (K2 (id ++ rest)
            (<[1 := consumed (M ++ id ++ rest) (id ++ rest)]> ∅) = Some x)
    as HK2.
  { unfold K2. rewrite star_greedy_run.
    - rewrite consumed_app. exact Hx.
    - apply forallb_Forall in Hid. eapply Forall_impl; [exact Hid|].
      intros c Hc. by destruct (id_char_facts c Hc).
    - destruct rest as [|d rest']; [done|]. unfold link_tail in Htail.
      apply andb_true_iff in Htail as [[Hd _]%andb_true_iff _].
      by apply negb_true_iff in Hd.
    - rewrite consumed_app. exists x. exact Hx. }
  (* the marker, and no later marker *)
  assert (star true cls_dot (M ++ id ++ rest) K1 = Some x) as HK1.
  { destruct (link_marker_cons M HM) as (c & M' & EM).
    rewrite EM at 1. cbn [app]. rewrite star_greedy_head.
    - change (c :: M' ++ id ++ rest) with ((c :: M') ++ id ++ rest).
      rewrite <- EM. unfold K1. by apply marker_here.
    - apply star_none. intros r Hr. unfold K1.
      apply (marker_not_after _ M id rest); try done. by rewrite EM. }
  rewrite star_greedy_app; [by rewrite HK1|done|by rewrite HK1].
Qed.

(** X10. Links of the usual forms resolve. After any text without line
    terminator, one of the markers [youtu.be/], [v/], [embed/], [watch?v=],
    [&v=] followed by an identifier of eleven letters, digits, [_] or [-]
    gives that identifier, also when further parameters follow it (a part
    that starts with [#], [&] or [?] and holds neither a slash nor
    [v=]). *)
Theorem video_id_of_link (before M id rest : jsstring) :
  M ∈ link_markers →
  forallb cls_dot before = true →
  length id = 11 → forallb id_char id = true →
  link_tail rest = true →
  getYoutubeVideoId (before ++ M ++ id ++ rest) = Ok (Some id).
Proof.
  intros HM Hbefore%forallb_Forall Hlen Hid Htail.
  set (url := before ++ M ++ id ++ rest).
  set (caps := <[2 := id]>
               (<[1 := consumed (M ++ id ++ rest) (id ++ rest)]> ∅)
               : captures).
  destruct (star_zero true cls_dot rest
              (λ r, Some (MkMatch (consumed url r) caps)) (ltac:(eauto)))
    as [m Hend].
  assert (str_match false youtube_re url = Some m) as Hm.
  { unfold str_match. apply scan_here.
    rewrite youtube_re_marker. cbn [run]. rewrite Nat.eqb_refl.
    rewrite <- Hend.
    apply (youtube_run_link url before M id rest
             (λ r c, Some (MkMatch (consumed url r) c))); done. }
  apply star_inv in Hend as (w & r & _ & _ & [= <-]).
  unfold getYoutubeVideoId. rewrite Hm. cbn [groups]. unfold caps.
  by rewrite lookup_insert_eq, Hlen.
Qed.

Lemma video_id_of_link_witness :
  getYoutubeVideoId
    (js "https://www.youtube.com/" ++ js "watch?v=" ++ js "dQw4w9WgXcQ" ++
     js "&list=PL1&t=42s") = Ok (Some (js "dQw4w9WgXcQ")).
Proof.
  apply (video_id_of_link (js "https://www.youtube.com/") (js "watch?v=")
           (js "dQw4w9WgXcQ") (js "&list=PL1&t=42s")).
  - unfold link_markers. rewrite !elem_of_cons. tauto.
  - vm_compute. reflexivity.
  - reflexivity.
  - vm_compute. reflexivity.
  - vm_compute. reflexivity.
Defined.

(** ** The frames *)

(** X11. The overlay is made from the middle frame: the index is
    [length / 2], always inside the list, so that the clamp by
    [length - 1] never acts and only an empty list leaves no frame. *)
Theorem middle_frame_used (frames : list Blob) :
  (frameToUse frames = None ↔ frames = []) ∧
  frameToUse frames = frames !! (length frames / 2).
Proof.
  destruct frames as [|f frames]; [done|]. cbn [frameToUse].
  assert (length (f :: frames) / 2 < length (f :: frames)) as Hlt
    by (apply Nat.div_lt; simpl; lia).
  replace (Nat.min (length (f :: frames) - 1) (length (f :: frames) / 2))
    with (length (f :: frames) / 2) by lia.
  split; [|done]. split; [|done].
  intros Hnone%lookup_ge_None. lia.
Qed.

Lemma video_id_cases (url : jsstring) :
  getYoutubeVideoId url = Ok None ∨
  ∃ id, getYoutubeVideoId url = Ok (Some id) ∧ length id = 11.
Proof.
  unfold getYoutubeVideoId.
  destruct (str_match false youtube_re url) as [m|] eqn:Hm; [|by left].
  destruct (str_match_binds _ _ _ _ 2 Hm eq_refl) as [id ->].
  destruct (Nat.eqb (length id) 11) eqn:Hlen; [|by left].
  right. exists id. by apply Nat.eqb_eq in Hlen.
Qed.

(** X12. [handleStartAnalysis] does nothing for an empty link and hands on
    exactly one frame for any other: the thumbnail of the video when the
    link resolves and the fetch delivers one, the placeholder otherwise.
    The overlay therefore always finds its frame, and the thumbnail is only
    asked for an identifier of eleven code units. *)
Theorem one_context_frame (youtubeLink : jsstring)
    (getYoutubeThumbnail : jsstring → option Blob)
    (generatePlaceholderFrame : Blob) :
  (youtubeLink = [] →
   contextFrames youtubeLink getYoutubeThumbnail generatePlaceholderFrame
     = Ok None) ∧
  (youtubeLink ≠ [] →
   ∃ frame,
     contextFrames youtubeLink getYoutubeThumbnail generatePlaceholderFrame
       = Ok (Some [frame]) ∧
     frameToUse [frame] = Some frame ∧
     ((∃ id, getYoutubeVideoId youtubeLink = Ok (Some id) ∧
             length id = 11 ∧ getYoutubeThumbnail id = Some frame) ∨
      (frame = generatePlaceholderFrame ∧
       (getYoutubeVideoId youtubeLink = Ok None ∨
        ∃ id, getYoutubeVideoId youtubeLink = Ok (Some id) ∧
              getYoutubeThumbnail id = None)))).
Proof.
  split; [by intros ->|]. intros Hlink.
  unfold contextFrames. destruct youtubeLink as [|c0 link]; [done|].
  destruct (video_id_cases (c0 :: link)) as [Hnull|(id & Hid & Hlen)].
  - rewrite Hnull. cbn. exists generatePlaceholderFrame. eauto 10.
  - rewrite Hid. cbn. destruct id as [|c v]; [done|].
    destruct (getYoutubeThumbnail (c :: v)) as [thumbnail|] eqn:Hthumb.
    + exists thumbnail. split; [done|]. split; [done|]. left. eauto.
    + exists generatePlaceholderFrame. split; [done|]. split; [done|].
      right. split; [done|]. right. eauto.
Qed.

(** ** More on the overlay *)

(** X13. What [generateVisualOverlay] returns is always an image data URL:
    [data:], a mime type that starts with [image/], [;base64,] and the
    bytes. *)
Theorem overlay_is_image_url (response : GenerateContentResponse)
    (url : jsstring) :
  generateVisualOverlay response = Ok url →
  startsWith (js "data:image/") url = true ∧
  ∃ subtype bytes,
    url = js "data:image/" ++ subtype ++ js ";base64," ++ bytes.
Proof.
  rewrite overlay_by_parts.
  destruct (parts_cases (first_candidate_parts response))
    as [Hall|[(l1 & subtype & bytes & l2 & -> & Hl1)
             |(l1 & part & l2 & -> & Hl1 & Hpart)]].
  - by rewrite first_image_none.
  - rewrite first_image_found by done. intros [= <-].
    split; [apply startsWith_prefix|]; unfold image_url; eauto.
  - by rewrite first_image_untyped.
Qed.

Lemma overlay_is_image_url_witness :
  startsWith (js "data:image/") (js "data:image/png;base64,iVBORw0KGgo=")
    = true ∧
  ∃ subtype bytes,
    js "data:image/png;base64,iVBORw0KGgo=" =
      js "data:image/" ++ subtype ++ js ";base64," ++ bytes.
Proof.
  apply (overlay_is_image_url
           (MkResponse (Some [ MkCandidate (Some (MkContent (Some
              [ MkPart None;
                MkPart (Some (Sdk.MkBlob (Some (js "image/png"))
                                (Some (js "iVBORw0KGgo=")))) ]))) ]))).
  vm_compute. reflexivity.
Defined.

(** ** More on the dashboard *)

(** X14. An index renders a link exactly when it is inside [segments], and
    the link then is the one of the segment at that index: its key is the
    index, its label the start time, its title the summary. *)
Theorem segment_link_in_range (getTimestampLink : jsstring → jsstring)
    (segs : list Segment) (segIdx : Z) :
  (is_Some (segment_link getTimestampLink segs segIdx) ↔
   (0 ≤ segIdx < Z.of_nat (length segs))%Z) ∧
  (∀ a, segment_link getTimestampLink segs segIdx = Some a →
     ∃ segment,
       segs !! Z.to_nat segIdx = Some segment ∧
       a = {| key := segIdx;
              href := getTimestampLink (startTime segment);
              anchor_title := summary segment;
              label := startTime segment |}).
Proof.
  unfold segment_link, at_index. split.
  - destruct (0 <=? segIdx)%Z eqn:Hpos.
    + apply Z.leb_le in Hpos.
      destruct (segs !! Z.to_nat segIdx) as [segment|] eqn:Hseg.
      * apply lookup_lt_Some in Hseg. split; [lia | by eauto].
      * apply lookup_ge_None in Hseg. split; [by intros [? ?] | lia].
    + apply Z.leb_gt in Hpos. split; [by intros [? ?] | lia].
  - intros a. destruct (0 <=? segIdx)%Z; [|done].
    destruct (segs !! Z.to_nat segIdx) as [segment|]; [|done].
    intros [= <-]. by exists segment.
Qed.

(** ** Failures after the parse *)

Lemma unwrap_not_null (d s : value) : unwrap d = Ok s → s ≠ VNull.
Proof.
  unfold unwrap. destruct d as [| | | |elems props|fields]; cbn; try done;
    try (by intros [= <-]).
  all: repeat match goal with
       | |- context [if_truthy ?o] =>
         let v := fresh "v" in
         let E := fresh "E" in
         destruct (if_truthy o) as [v|] eqn:E; cbn
       end; intros [= <-]; try done.
  all: match goal with
       | E : if_truthy ?o = Some _ |- _ =>
         destruct o as [w|]; [|done]; cbn in E;
         destruct (truthy w) eqn:Ht; [|done]; injection E as <-;
         by intros ->
       end.
Qed.

(** X15. After a successful parse the function fails in two cases only, and
    always with a [TypeError]: on the payload [null], and when the strategy
    (the payload, or what a truthy wrapper key holds) is a boolean, a number
    or a string. *)
Theorem post_parse_failures (parsedData : value) :
  (∀ e, post_parse parsedData = Throw e → e = TypeError) ∧
  ((∃ e, post_parse parsedData = Throw e) ↔
   parsedData = VNull ∨
   ∃ strategy, unwrap parsedData = Ok strategy ∧
               is_primitive strategy = true).
Proof.
  split; [apply post_parse_throws|]. unfold post_parse.
  destruct (unwrap parsedData) as [strategy|e] eqn:Hun; cbn.
  - pose proof (unwrap_not_null _ _ Hun) as Hnn.
    assert (parsedData ≠ VNull) as Hd by (by intros ->).
    unfold repair.
    destruct strategy as [| | | |elems props|fields]; cbn; try done.
    + split; [intros _; right; eauto | by eauto].
    + split; [intros _; right; eauto | by eauto].
    + split; [intros _; right; eauto | by eauto].
    + split.
      * intros [e He]. by destruct (truthy_opt _).
      * intros [->|(s & [= <-] & ?)]; done.
    + split.
      * intros [e He]. by destruct (truthy_opt _).
      * intros [->|(s & [= <-] & ?)]; done.
  - split; [|by eauto]. intros _. left.
    destruct parsedData as [| | | |elems props|fields]; try done.
    all: revert Hun; unfold unwrap; cbn;
      repeat match goal with
      | |- context [if_truthy ?o] => destruct (if_truthy o); cbn
      end; done.
Qed.

(** ** A response in the prompted format *)

Lemma after_here (p rest : jsstring) : after p (p ++ rest) = Some rest.
Proof.
  rewrite after_unfold.
  assert (startsWith p (p ++ rest) = true) as ->
    by (apply startsWith_prefix; eauto).
  by rewrite drop_app_length.
Qed.

(** The text before a closing tag that is the first one. *)
Lemma before_exact (t z : jsstring) :
  includes close_tag (t ++ js "</thinking") = false →
  before close_tag (t ++ close_tag ++ z) = t.
Proof.
  induction t as [|c t IH]; intros Hinc; rewrite before_unfold.
  - cbn [app]. assert (startsWith close_tag (close_tag ++ z) = true) as ->
      by (apply startsWith_prefix; eauto).
    done.
  - cbn [app includes] in Hinc. apply orb_false_iff in Hinc as [Hs Hinc].
    assert (startsWith close_tag ((c :: t) ++ close_tag ++ z) = false) as ->.
    { change close_tag with (js "</thinking" ++ js ">") at 2.
      rewrite <- app_assoc, app_assoc.
      rewrite startsWith_app_long; [done|].
      rewrite length_app. simpl. lia. }
    cbn [app]. by rewrite IH.
Qed.

(** X16. A response in the format the prompt asks for: the narrative between
    the tags, then white space and a fenced block. Whatever the cut into
    chunks, the last call of [onThinking] gets exactly the narrative, and
    the outcome is the parse of the content of the block, unwrapped and
    repaired. The narrative holds no closing tag (nor one that the closing
    tag completes), no fence starts before the block, and the block is plain
    (see X8). *)
Theorem prompted_response (chunks : list (option jsstring))
    (t sp label sp1 body sp2 post : jsstring) :
  stream_text chunks =
    (open_tag ++ t ++ close_tag ++ sp) ++
    fence ++ label ++ sp1 ++ body ++ sp2 ++ fence ++ post →
  includes close_tag (t ++ js "</thinking") = false →
  includes fence ((open_tag ++ t ++ close_tag ++ sp) ++ js "``") = false →
  json_label label = true →
  no_label_clash label sp1 body = true →
  forallb cls_space sp1 = true → forallb cls_space sp2 = true →
  no_space_at (head body) = true → no_space_at (last body) = true →
  no_backtick body = true →
  last (emitted (stream_loop loop_init chunks)) = Some (Some t) ∧
  thinkingText (stream_loop loop_init chunks) = Some t ∧
  snd (analyzeVideoAndCreateRevivalPlan chunks) =
    match JSON.parse body with
    | Some parsedData => post_parse parsedData
    | None => Throw bad_json
    end.
Proof.
  intros Htext Hclose Hpre Hlabel Hclash Hsp1 Hsp2 Hhead Hlast Hbt.
  assert (narrative (stream_text chunks) = Some t) as Hn.
  { rewrite Htext. unfold narrative. rewrite <- !app_assoc, after_here.
    cbn [fmap option_fmap option_map]. by rewrite before_exact. }
  assert (fullText (stream_loop loop_init chunks) = stream_text chunks)
    as Hfull by (by rewrite stream_loop_fullText).
  destruct chunks as [|text chunks _] using rev_ind; [done|].
  destruct (stream_loop_last chunks text loop_init t) as [H1 H2]; [done|].
  split; [done|]. split; [done|].
  unfold analyzeVideoAndCreateRevivalPlan. cbn [snd]. rewrite Hfull, Htext.
  unfold finalize. rewrite block_match by done. cbn [groups].
  by rewrite lookup_singleton_eq.
Qed.

Lemma prompted_response_witness :
  last (emitted (stream_loop loop_init scenario))
    = Some (Some (js "Step 1... Step 2.")) ∧
  thinkingText (stream_loop loop_init scenario)
    = Some (js "Step 1... Step 2.") ∧
  snd (analyzeVideoAndCreateRevivalPlan scenario) =
    match JSON.parse (jsq "{'segments':[],'outdatedItems':[],'predictedViews':100,'predictedEngagement':50}") with
    | Some parsedData => post_parse parsedData
    | None => Throw bad_json
    end.
Proof.
  apply (prompted_response scenario (js "Step 1... Step 2.") []
           (js "json") [10%N]
           (jsq "{'segments':[],'outdatedItems':[],'predictedViews':100,'predictedEngagement':50}")
           [10%N] []);
    vm_compute; reflexivity.
Defined.

(** ** Texts that are no links *)

(** X17. A text without any slash and without [v=] never resolves: an
    identifier pasted on its own is not taken for a video. *)
Theorem bare_text_unresolved (url : jsstring) :
  includes (js "/") url = false →
  includes (js "v=") url = false →
  getYoutubeVideoId url = Ok None.
Proof.
  intros Hslash Hv. unfold getYoutubeVideoId.
  destruct (str_match false youtube_re url) as [m|] eqn:Hm; [|done].
  exfalso. apply scan_start in Hm as (start & Hsuf & Hrun).
  rewrite youtube_re_marker in Hrun. cbn [run] in Hrun.
  destruct (Nat.eqb (length start) (length url)); [|done].
  apply star_suffix in Hrun as (r & Hr & Hrun).
  assert (r `suffix_of` url) as Hru by (by etrans).
  apply marker_needs in Hrun as [E|E].
  - by rewrite (includes_suffix _ _ _ Hru Hslash) in E.
  - by rewrite (includes_suffix _ _ _ Hru Hv) in E.
Qed.

Lemma bare_text_unresolved_witness :
  getYoutubeVideoId (js "dQw4w9WgXcQ") = Ok None.
Proof. apply bare_text_unresolved; vm_compute; reflexivity. Defined.
